(** * seekpath, [kpaths3d/hkot/spg_mapping.py]

    A shallow embedding of the spacegroup helpers and of the reduction of a
    standard crystallographic cell to its primitive cell.

    Conventions of the embedding:
    - Python exceptions are values of [exception]; a call that may raise
      returns a [result].
    - a float64 number is the rational that it denotes ([Qc], rationals in
      lowest terms, so that equal numbers are equal terms).  The operations
      of the comparison of the positions within [threshold] round their
      results to the nearest float64 ([float64]), as the code does.  Matrix
      products and determinants are taken in exact arithmetic: the entries
      of the matrices of [get_P_matrix] are exact in binary floating point,
      except the thirds of the matrix [P] of ["hR"], and the products of
      the code are rounded.
    - numpy arrays of shape (3,3) are triples of rows, arrays of shape (N,3)
      are lists of rows, arrays of shape (N,) are lists.
    - [positions] is an array of shape (N,3) and [types] an array of shape
      (N,) whose elements have a decidable equality; N may be 0.
    - the two [print] statements of [get_primitive] only write a warning to
      standard output and are left out. *)

From Stdlib Require Import QArith Qcanon.
From stdpp Require Import gmap strings list sorting.

Local Open Scope string_scope.

(** ** Exceptions and results *)

(** One argument of [str.format]. *)
Inductive fmt_arg :=
  | FStr (s : string)
  | FInt (n : Z)
  | FGroups (gs : list (list nat)).

(** The exception classes that the module can raise.  A [ValueError] carries
    its message template and the arguments given to [format]. *)
Inductive exception :=
  | TypeError (msg : string)
  | ValueError (msg : string) (args : list fmt_arg)
  | AttributeError (msg : string)
  | IndexError (msg : string) (args : list fmt_arg)
  | KeyError (key : string).

Inductive result (A : Type) :=
  | Ok (a : A)
  | Err (e : exception).
Arguments Ok {A} a.
Arguments Err {A} e.

#[global] Instance result_ret : MRet result := λ A a, Ok a.
#[global] Instance result_bind : MBind result := λ A B f m,
  match m with
  | Ok a => f a
  | Err e => Err e
  end.

#[global] Instance fmt_arg_eq_dec : EqDecision fmt_arg.
Proof. solve_decision. Defined.
#[global] Instance exception_eq_dec : EqDecision exception.
Proof. solve_decision. Defined.
#[global] Instance result_eq_dec {A} `{EqDecision A} : EqDecision (result A).
Proof. solve_decision. Defined.

(** ** Python values given to [get_crystal_family] *)

Inductive pyval :=
  | PyInt (n : Z)
  | PyLong (n : Z)
  | PyBool (b : bool)
  | PyFloat (x : Qc)
  | PyStr (s : string)
  | PyNone.

(** [isinstance(number, (int, long))]: the integer that the value is when the
    test succeeds ([bool] is a subclass of [int]). *)
Definition isinstance_int_long (number : pyval) : option Z :=
  match number with
  | PyInt n | PyLong n => Some n
  | PyBool b => Some (if b then 1 else 0)%Z
  | PyFloat _ | PyStr _ | PyNone => None
  end.

Definition msg_integer : string := "number should be integer".
Definition msg_ge_1 : string := "number should be >= 1".
Definition msg_le_230 : string := "number should be <= 230".

Definition get_crystal_family (number : pyval) : result string :=
  match isinstance_int_long number with
  | None => Err (TypeError msg_integer)
  | Some n =>
      if decide (n < 1)%Z then Err (ValueError msg_ge_1 [])
      else if decide (n ≤ 2)%Z then Ok "a" (* triclinic *)
      else if decide (n ≤ 15)%Z then Ok "m" (* monoclinic *)
      else if decide (n ≤ 74)%Z then Ok "o" (* orthorhombic *)
      else if decide (n ≤ 142)%Z then Ok "t" (* tetragonal *)
      else if decide (n ≤ 194)%Z then Ok "h" (* trigonal + hexagonal *)
      else if decide (n ≤ 230)%Z then Ok "c" (* cubic *)
      else Err (ValueError msg_le_230 [])
  end.

(** ** [pointgroup_has_inversion] and [pgnum_from_pgint] *)

Definition msg_1_32 : string := "number should be between 1 and 32".

Definition pointgroup_has_inversion (number : Z) : result bool :=
  if decide (number ∈ [2; 5; 8; 11; 15; 17; 20; 23; 27; 29; 32]%Z) then
    Ok true
  else if decide (number ∈ [1; 3; 4; 6; 7; 9; 10; 12; 13; 14; 16; 18; 19; 21;
                            22; 24; 25; 26; 28; 30; 31]%Z) then
    Ok false
  else Err (ValueError msg_1_32 []).

(** The items of the dictionary [table] of [pgnum_from_pgint], in the order
    of the source. *)
Definition table_items : list (string * Z) :=
  [("C1", 1); ("C2", 3); ("C2h", 5); ("C2v", 7); ("C3", 16); ("C3h", 22);
   ("C3i", 17); ("C3v", 19); ("C4", 9); ("C4h", 11); ("C4v", 13); ("C6", 21);
   ("C6h", 23); ("C6v", 25); ("Ci", 2); ("Cs", 4); ("D2", 6); ("D2d", 14);
   ("D2h", 8); ("D3", 18); ("D3d", 20); ("D3h", 26); ("D4", 12); ("D4h", 15);
   ("D6", 24); ("D6h", 27); ("O", 30); ("Oh", 32); ("S4", 10); ("T", 28);
   ("Td", 31); ("Th", 29)]%Z.

Definition table : gmap string Z := list_to_map table_items.

(** [table[pgint]]: a missing key raises [KeyError]. *)
Definition pgnum_from_pgint (pgint : string) : result Z :=
  match table !! pgint with
  | Some n => Ok n
  | None => Err (KeyError pgint)
  end.

(** ** [get_spgroup_data_realtime] *)

(** The three entries that the function reads in the dictionary returned by
    [spglib.get_spacegroup_type]. *)
Record spacegroup_type := {
  data_number : Z;
  data_international_short : string;
  data_pointgroup_international : string
}.

Definition msg_string_index : string := "string index out of range".

(** [s[0]] for a string [s]. *)
Definition string_first (s : string) : result string :=
  match s with
  | String c _ => Ok (String c "")
  | EmptyString => Err (IndexError msg_string_index [])
  end.

(** A [for] loop over a list whose body updates a state and may raise. *)
Fixpoint for_each {A S} (body : S → A → result S) (s : S) (l : list A)
  : result S :=
  match l with
  | [] => Ok s
  | x :: l' => s' ← body s x; for_each body s' l'
  end.

Section get_spgroup_data_realtime.
(** [spglib.get_spacegroup_type], the table of the 530 Hall settings, is
    outside of this module. *)
Variable get_spacegroup_type : nat → spacegroup_type.

(** One iteration of the loop on [info]. *)
Definition info_step (info : gmap Z (string * string * bool)) (hall_n : nat)
  : result (gmap Z (string * string * bool)) :=
  let data := get_spacegroup_type hall_n in
  let number := data_number data in
  let int_short := data_international_short data in
  let pg_int := data_pointgroup_international data in
  if decide (info !! number = None) then
    family ← get_crystal_family (PyInt number);
    centering ← string_first int_short;
    pgnum ← pgnum_from_pgint pg_int;
    has_inversion ← pointgroup_has_inversion pgnum;
    mret (<[number := (family, centering, has_inversion)]> info)
  else mret info.

Definition get_spgroup_data_realtime
  : result (gmap Z (string * string * bool)) :=
  for_each info_step ∅ (seq 1 530).
(** The value stored for the setting [hall_n]. *)
Definition entry_of (hall_n : nat) (v : string * string * bool) : Prop :=
  let data := get_spacegroup_type hall_n in
  get_crystal_family (PyInt (data_number data)) = Ok v.1.1 ∧
  string_first (data_international_short data) = Ok v.1.2 ∧
  pgnum_from_pgint (data_pointgroup_international data)
    ≫= pointgroup_has_inversion = Ok v.2.

(** What holds of [info] after the loop has gone through the settings
    [halls]: every entry was stored for the first setting with its number,
    and every number met has an entry. *)
Definition loop_invariant (info : gmap Z (string * string * bool))
    (halls : list nat) : Prop :=
  (∀ n v, info !! n = Some v →
     ∃ i hall_n, halls !! i = Some hall_n ∧
       data_number (get_spacegroup_type hall_n) = n ∧ entry_of hall_n v ∧
       ∀ j h, (j < i)%nat → halls !! j = Some h →
              data_number (get_spacegroup_type h) ≠ n) ∧
  (∀ h, h ∈ halls →
     is_Some (info !! data_number (get_spacegroup_type h))).
End get_spgroup_data_realtime.

(** ** Vectors and 3x3 matrices *)

Local Open Scope Qc_scope.

Definition vec3 : Type := Qc * Qc * Qc.
Definition mat3 : Type := vec3 * vec3 * vec3.

Definition Z2Qc (n : Z) : Qc := Q2Qc (inject_Z n).

(** The float [a / b] of two integers. *)
Definition frac (a b : Z) : Qc := Z2Qc a / Z2Qc b.

(** [np.array] of a nested list of integers. *)
Definition np_array (m : (Z * Z * Z) * (Z * Z * Z) * (Z * Z * Z)) : mat3 :=
  let '((a, b, c), (d, e, f), (g, h, i)) := m in
  ((Z2Qc a, Z2Qc b, Z2Qc c),
   (Z2Qc d, Z2Qc e, Z2Qc f),
   (Z2Qc g, Z2Qc h, Z2Qc i)).

(** [c * M] for a scalar [c]. *)
Definition scale (c : Qc) (M : mat3) : mat3 :=
  let '((a, b, c0), (d, e, f), (g, h, i)) := M in
  ((c * a, c * b, c * c0), (c * d, c * e, c * f), (c * g, c * h, c * i)).

(** [M.T] *)
Definition transpose (M : mat3) : mat3 :=
  let '((a, b, c), (d, e, f), (g, h, i)) := M in
  ((a, d, g), (b, e, h), (c, f, i)).

(** [np.dot(M, v)] for a vector [v] of shape (3,). *)
Definition dot_mv (M : mat3) (v : vec3) : vec3 :=
  let '((a, b, c), (d, e, f), (g, h, i)) := M in
  let '(x, y, z) := v in
  (a * x + b * y + c * z, d * x + e * y + f * z, g * x + h * y + i * z).

(** [np.dot(A, B)] for two (3,3) arrays. *)
Definition dot_mm (A B : mat3) : mat3 :=
  let '(c1, c2, c3) := transpose B in
  transpose (dot_mv A c1, dot_mv A c2, dot_mv A c3).

(** The determinant of [M], in exact arithmetic.  [np.linalg.det(M)]
    computes it in floating point, from the pivots of a factorisation of
    [M], and returns a float64 next to it: for the integer matrix [invP]
    of ["hR"], of determinant 3, it returns 3.0000000000000004.  The
    embedding takes the determinant itself where the code calls
    [np.linalg.det]. *)
Definition det (M : mat3) : Qc :=
  let '((a, b, c), (d, e, f), (g, h, i)) := M in
  a * (e * i - f * h) - b * (d * i - f * g) + c * (d * h - e * g).

(** The determinant of a matrix of integers, in the integers. *)
Definition det_int (m : (Z * Z * Z) * (Z * Z * Z) * (Z * Z * Z)) : Z :=
  let '((a, b, c), (d, e, f), (g, h, i)) := m in
  (a * (e * i - f * h) - b * (d * i - f * g) + c * (d * h - e * g))%Z.

(** [int(x)] of a float: truncation towards zero. *)
Definition py_int (x : Qc) : Z := (Qnum x ÷ Z.pos (Qden x))%Z.

Definition identity : mat3 := np_array ((1, 0, 0), (0, 1, 0), (0, 0, 1))%Z.

Definition entries (M : mat3) : list Qc :=
  let '((a, b, c), (d, e, f), (g, h, i)) := M in [a; b; c; d; e; f; g; h; i].

(** ** [get_P_matrix] *)

Definition msg_bravais : string := "Invalid bravais_lattice {}".

Definition get_P_matrix (bravais_lattice : string) : result (mat3 * mat3) :=
  if decide (bravais_lattice ∈ ["cP"; "tP"; "hP"; "oP"; "mP"]) then
    Ok (np_array ((1, 0, 0), (0, 1, 0), (0, 0, 1))%Z,
        np_array ((1, 0, 0), (0, 1, 0), (0, 0, 1))%Z)
  else if decide (bravais_lattice ∈ ["cF"; "oF"]) then
    Ok (scale (Z2Qc 1 / Z2Qc 2) (np_array ((0, 1, 1), (1, 0, 1), (1, 1, 0))%Z),
        np_array ((-1, 1, 1), (1, -1, 1), (1, 1, -1))%Z)
  else if decide (bravais_lattice ∈ ["cI"; "tI"; "oI"]) then
    Ok (scale (Z2Qc 1 / Z2Qc 2) (np_array ((-1, 1, 1), (1, -1, 1), (1, 1, -1))%Z),
        np_array ((0, 1, 1), (1, 0, 1), (1, 1, 0))%Z)
  else if decide (bravais_lattice = "hR") then
    Ok (scale (Z2Qc 1 / Z2Qc 3) (np_array ((2, -1, -1), (1, 1, -2), (1, 1, 1))%Z),
        np_array ((1, 0, 1), (-1, 1, 1), (0, -1, 1))%Z)
  else if decide (bravais_lattice = "oC") then
    Ok (scale (Z2Qc 1 / Z2Qc 2) (np_array ((1, 1, 0), (-1, 1, 0), (0, 0, 2))%Z),
        np_array ((1, -1, 0), (1, 1, 0), (0, 0, 1))%Z)
  else if decide (bravais_lattice = "oA") then
    Ok (scale (Z2Qc 1 / Z2Qc 2) (np_array ((0, 0, 2), (1, 1, 0), (-1, 1, 0))%Z),
        np_array ((0, 1, -1), (0, 1, 1), (1, 0, 0))%Z)
  else if decide (bravais_lattice = "mC") then
    Ok (scale (Z2Qc 1 / Z2Qc 2) (np_array ((1, -1, 0), (1, 1, 0), (0, 0, 2))%Z),
        np_array ((1, 1, 0), (-1, 1, 0), (0, 0, 1))%Z)
  else Err (ValueError msg_bravais [FStr bravais_lattice]).

(** The fourteen Bravais lattice symbols tested by the branches above, in
    the order of the branches. *)
Definition bravais_symbols : list string :=
  ["cP"; "tP"; "hP"; "oP"; "mP"; "cF"; "oF"; "cI"; "tI"; "oI";
   "hR"; "oC"; "oA"; "mC"].

(** The symbols tested by each branch of [get_P_matrix], branch by
    branch. *)
Definition bravais_groups : list (list string) :=
  [["cP"; "tP"; "hP"; "oP"; "mP"]; ["cF"; "oF"]; ["cI"; "tI"; "oI"];
   ["hR"]; ["oC"]; ["oA"]; ["mC"]].

(** ** numpy and builtin helpers used by [get_primitive] *)

(** [a / b] rounded to the nearest integer, to the even one of the two
    when it is half way, for [0 <= a] and [0 < b]. *)
Definition round_half_even (a b : Z) : Z :=
  let q := (a / b)%Z in
  let r := (a mod b)%Z in
  if decide (2 * r < b)%Z then q
  else if decide (b < 2 * r)%Z then (q + 1)%Z
  else if Z.even q then q else (q + 1)%Z.

(** [m * 2^q] *)
Definition scale2 (m q : Z) : Qc :=
  if decide (0 ≤ q)%Z then Z2Qc (m * 2 ^ q)
  else Q2Qc (Qmake m (Z.to_pos (2 ^ (- q)))).

(** The float64 nearest to [x], the one with an even last bit when [x] is
    half way between two: 53 significant bits, and a unit in the last place
    not below [2^-1074].  It is what an arithmetic operation on float64
    numbers returns for the exact result [x].  Numbers beyond the largest
    float64 are not part of the embedding. *)
Definition float64 (x : Qc) : Qc :=
  let n := Z.abs (Qnum x) in
  let d := Z.pos (Qden x) in
  if decide (n = 0)%Z then 0
  else
    let e0 := (Z.log2 n - Z.log2 d)%Z in
    (* the exponent [e] of [x]: [2^e <= n / d < 2^(e+1)] *)
    let e :=
      if decide (0 ≤ e0)%Z
      then (if decide (n < d * 2 ^ e0)%Z then e0 - 1 else e0)%Z
      else (if decide (n * 2 ^ (- e0) < d)%Z then e0 - 1 else e0)%Z in
    let q := Z.max (e - 52) (-1074) in
    let m :=
      if decide (0 ≤ q)%Z then round_half_even n (d * 2 ^ q)
      else round_half_even (n * 2 ^ (- q)) d in
    scale2 (Z.sgn (Qnum x) * m) q.

(** [x % 1.] on float64: the remainder of the division by 1 that [fmod]
    gives is exact and has the sign of [x]; when it is negative, 1 is added
    to it, and this sum is rounded. *)
Definition mod1 (x : Qc) : Qc :=
  let r := x - Z2Qc (py_int x) in
  if decide (r < 0) then float64 (r + 1) else r.

(** [np.abs] on one number. *)
Definition Qc_abs (x : Qc) : Qc := if decide (x < 0) then - x else x.

(** [threshold = 1.e-6]: the float64 nearest to one millionth. *)
Definition threshold : Qc := float64 (Z2Qc 1 / Z2Qc 1000000).

(** [0.5] *)
Definition half : Qc := Z2Qc 1 / Z2Qc 2.

(** One entry of [np.abs(((a - a[:,None] + 0.5) % 1.) - 0.5) < threshold]:
    row [i], column [j] compares [a[j] - a[i]].  The difference, the sum
    with 0.5, the remainder and the difference with 0.5 are float64
    operations, each rounded. *)
Definition close_mod1 (ai aj : Qc) : bool :=
  bool_decide
    (Qc_abs (float64 (mod1 (float64 (float64 (aj - ai) + half)) - half))
     < threshold).

(** [np.abs(((a - a[:,None] + 0.5) % 1.) - 0.5) < threshold], an N x N array
    of booleans given as the list of its rows. *)
Definition axis_match (a : list Qc) : list (list bool) :=
  (λ ai, close_mod1 ai <$> a) <$> a.

(** [np.logical_and] of two arrays of the same shape. *)
Definition logical_and (A B : list (list bool)) : list (list bool) :=
  zip_with (zip_with andb) A B.

(** [a[mask]] for a boolean mask of the length of [a]. *)
Fixpoint bool_index {A} (a : list A) (mask : list bool) : list A :=
  match a, mask with
  | x :: a', b :: mask' =>
      if b then x :: bool_index a' mask' else bool_index a' mask'
  | _, _ => []
  end.

Definition msg_index : string :=
  "index {} is out of bounds for axis 0 with size {}".
Definition msg_index_type : string :=
  "arrays used as indices must be of integer (or boolean) type".
Definition msg_tuple_index : string := "tuple index out of range".
Definition msg_keys : string := "'list' object has no attribute 'keys'".

(** [a[np.array(idx)]] for a list or a tuple [idx] of indices.  The array
    made of no element is an array of floats, which numpy refuses as an
    index. *)
Definition fancy_index {A} (a : list A) (idx : list nat) : result (list A) :=
  if decide (idx = []) then Err (IndexError msg_index_type [])
  else
    mapM (λ i, match a !! i with
               | Some x => Ok x
               | None =>
                   Err (IndexError msg_index
                          [FInt (Z.of_nat i); FInt (Z.of_nat (length a))])
               end) idx.

(** [group[0]] *)
Definition tuple_first (group : list nat) : result nat :=
  match group with
  | i :: _ => Ok i
  | [] => Err (IndexError msg_tuple_index [])
  end.

(** [l.keys()] on a list: lists have no such attribute. *)
Definition list_keys {A} (l : list A) : result (list A) :=
  Err (AttributeError msg_keys).

(** [collections.Counter(l)]: a dictionary from the elements of [l] to the
    number of their occurrences, filled by counting the elements one by one. *)
Definition count_step `{Countable K} (m : gmap K nat) (k : K) : gmap K nat :=
  <[k := S (default 0%nat (m !! k))]> m.

Definition Counter `{Countable K} (l : list K) : gmap K nat :=
  foldl count_step ∅ l.

(** Comparison of tuples of integers: lexicographic, a proper prefix is
    smaller. *)
Fixpoint tuple_leb (a b : list nat) : bool :=
  match a, b with
  | [], _ => true
  | _ :: _, [] => false
  | x :: a', y :: b' =>
      if decide (x < y)%nat then true
      else if decide (x = y) then tuple_leb a' b'
      else false
  end.

Definition tuple_le (a b : list nat) : Prop := tuple_leb a b = true.

#[global] Instance tuple_le_dec : RelDecision tuple_le.
Proof. intros a b. unfold tuple_le. apply _. Defined.

(** [sorted(l)] for a list of tuples of integers. *)
Definition sorted (l : list (list nat)) : list (list nat) :=
  merge_sort tuple_le l.

(** [enumerate(l)] *)
Definition enumerate {A} (l : list A) : list (nat * A) := imap pair l.

(** [x[:,0]], [x[:,1]] and [x[:,2]] of an (N,3) array. *)
Definition column0 (x : list vec3) : list Qc := (λ p, p.1.1) <$> x.
Definition column1 (x : list vec3) : list Qc := (λ p, p.1.2) <$> x.
Definition column2 (x : list vec3) : list Qc := (λ p, p.2) <$> x.

(** [np.dot(M, x.T).T] for an (N,3) array [x]: row [k] of the result is
    [np.dot(M, x[k])]. *)
Definition dot_rows (M : mat3) (x : list vec3) : list vec3 := dot_mv M <$> x.

(** ** [get_primitive] *)

Definition msg_len : string :=
  "Problem creating primitive cell, I found the following group of atoms with len != {}: {}".
Definition msg_types : string :=
  "The following ids of atoms go on top of each other, but they are of different type! {}".

Section get_primitive.
Context {T : Type} `{EqDecision T}.

(** A structure is the tuple [(lattice, positions, types)]; the rows of
    [lattice] are the lattice vectors. *)
Definition structure : Type := mat3 * list vec3 * list T.

Definition all_match_of (prim_positions : list vec3) : list (list bool) :=
  let x_match := axis_match (column0 prim_positions) in
  let y_match := axis_match (column1 prim_positions) in
  let z_match := axis_match (column2 prim_positions) in
  logical_and x_match (logical_and y_match z_match).

Definition group_of_equivalent_atoms_of (all_match : list (list bool))
  : list (list nat) :=
  (λ row, bool_index (seq 0 (length all_match)) row) <$> all_match.

Definition wrong_count_of (group_count : gmap (list nat) nat)
    (volume_ratio : Z) : list (list nat) :=
  (filter (λ gc, Z.of_nat gc.2 ≠ volume_ratio) (map_to_list group_count)).*1.

(** [set(np.array(types)[np.array(group)])]: the set of the types of the
    atoms of one group, as the list of its distinct elements. *)
Definition type_set (types : list T) (group : list nat) : result (list T) :=
  ts ← fancy_index types group; mret (remove_dups ts).

(** The second half of [get_primitive]: the check of the types of each
    group, and the choice of the first atom of each group. *)
Definition choose_representatives (types : list T)
    (prim_positions : list vec3) (groups : list (list nat))
  : result (list vec3 * list T) :=
  unique_types ← mapM (type_set types) groups;
  let problematic_groups_idx :=
    (filter (λ it, length it.2 ≠ 1%nat) (enumerate unique_types)).*1 in
  _ ← (if decide (problematic_groups_idx = []) then Ok ()
       else
         Err (ValueError msg_types
                [FGroups (filter (λ ig, ig.1 ∈ problematic_groups_idx)
                            (enumerate groups)).*2]));
  chosen_idx ← mapM tuple_first groups;
  prim_positions' ← fancy_index prim_positions chosen_idx;
  prim_types ← fancy_index types chosen_idx;
  mret (prim_positions', prim_types).

Definition get_primitive (s : structure) (bravais_lattice : string)
  : result (structure * (mat3 * mat3)) :=
  let '(lattice, positions, types) := s in
  '(P, invP) ← get_P_matrix bravais_lattice;
  (* [int(np.linalg.det(invP))]: the float that [np.linalg.det] returns is
     next to the determinant, and its truncation is taken to be the
     determinant, an integer for the matrices of [get_P_matrix]. *)
  let volume_ratio := py_int (det invP) in
  let prim_lattice := transpose (dot_mm (transpose lattice) P) in
  let prim_positions := dot_rows invP positions in
  let all_match := all_match_of prim_positions in
  let group_of_equivalent_atoms := group_of_equivalent_atoms_of all_match in
  let group_count := Counter group_of_equivalent_atoms in
  let wrong_count := wrong_count_of group_count volume_ratio in
  _ ← (if decide (wrong_count = []) then Ok ()
       else
         keys ← list_keys wrong_count;
         Err (ValueError msg_len [FInt volume_ratio; FGroups keys]));
  let groups := sorted (map_to_list group_count).*1 in
  '(prim_positions', prim_types) ←
    choose_representatives types prim_positions groups;
  let prim_structure := (prim_lattice, prim_positions', prim_types) in
  mret (prim_structure, (P, invP)).
End get_primitive.

(** ** The error classes of the interface

    The interface names three kinds of failure; they are recognised here by
    the exception class and the message of the [raise] statement. *)
Inductive error_kind := InvalidInput | StructureInconsistency | TypeMismatch.

Definition error_kind_of (e : exception) : option error_kind :=
  match e with
  | TypeError msg =>
      if decide (msg = msg_integer) then Some InvalidInput else None
  | ValueError msg _ =>
      if decide (msg ∈ [msg_ge_1; msg_le_230; msg_bravais]) then Some InvalidInput
      else if decide (msg = msg_len) then Some StructureInconsistency
      else if decide (msg = msg_types) then Some TypeMismatch
      else None
  | AttributeError _ | IndexError _ _ | KeyError _ => None
  end.

(** The conventional face-centred cubic cell with one atom per lattice
    point. *)
Definition fcc_positions : list vec3 :=
  [(0, 0, 0); (half, half, 0); (half, 0, half); (0, half, half)].

(** Two rows of the transformed positions coincide when all three
    coordinates agree modulo one within the threshold: entry [i], [j] of
    [all_match] for the rows [p] (row [i]) and [q] (row [j]). *)
Definition coincident (p q : vec3) : bool :=
  close_mod1 p.1.1 q.1.1 && (close_mod1 p.1.2 q.1.2 && close_mod1 p.2 q.2).

(** Row [i] of [group_of_equivalent_atoms] for the transformed positions
    [pp], where [p] is row [i] of [pp]: the indices of the atoms that
    coincide with atom [i]. *)
Definition group_of (pp : list vec3) (p : vec3) : list nat :=
  bool_index (seq 0 (length pp)) (coincident p <$> pp).

(** The number of occurrences of [k] in [l]. *)
Definition occurrences `{EqDecision K} (k : K) (l : list K) : nat :=
  length (filter (k =.) l).

(** The rows of [group_of_equivalent_atoms] for the transformed positions
    [pp], and the sorted keys of their [Counter]. *)
Definition rows_of (pp : list vec3) : list (list nat) := group_of pp <$> pp.

Definition groups_of (pp : list vec3) : list (list nat) :=
  sorted (map_to_list (Counter (rows_of pp))).*1.

(** * Properties *)

(** ** Tactics *)

(** Closed decidable statements, rational arithmetic included, are settled
    by evaluating their decision procedure. *)
Ltac by_eval := apply (bool_decide_unpack _); vm_compute; reflexivity.

(** Equations between vectors or matrices, component by component. *)
Ltac by_ring :=
  repeat match goal with |- (_, _) = (_, _) => f_equal end; ring.

(** Case analysis over the branches of [get_P_matrix]. *)
Ltac P_matrix_cases H :=
  unfold get_P_matrix in H;
  repeat case_decide; simplify_eq.

(** One case per symbol of a membership hypothesis in a literal list. *)
Ltac symbol_cases :=
  repeat match goal with
    | H : _ ∈ _ :: _ |- _ => apply elem_of_cons in H as [H|H]
    | H : _ ∈ [] |- _ => by apply elem_of_nil in H
    end;
  subst.

(** ** [get_crystal_family] *)

(** C9. For an integer argument [n] ([int], [long] or [bool]),
    [get_crystal_family] returns ["a"] (triclinic) on [1,2], ["m"]
    (monoclinic) on [3,15], ["o"] (orthorhombic) on [16,74], ["t"]
    (tetragonal) on [75,142], ["h"] (trigonal and hexagonal) on [143,194] and
    ["c"] (cubic) on [195,230]; outside [1,230], and for an argument that is
    not an integer, it raises an exception of the InvalidInput kind. *)
Theorem get_crystal_family_ranges (number : pyval) :
  (∀ n : Z, isinstance_int_long number = Some n →
     ((1 ≤ n ≤ 2)%Z → get_crystal_family number = Ok "a") ∧
     ((3 ≤ n ≤ 15)%Z → get_crystal_family number = Ok "m") ∧
     ((16 ≤ n ≤ 74)%Z → get_crystal_family number = Ok "o") ∧
     ((75 ≤ n ≤ 142)%Z → get_crystal_family number = Ok "t") ∧
     ((143 ≤ n ≤ 194)%Z → get_crystal_family number = Ok "h") ∧
     ((195 ≤ n ≤ 230)%Z → get_crystal_family number = Ok "c") ∧
     ((n < 1 ∨ 230 < n)%Z →
        ∃ e, get_crystal_family number = Err e ∧
             error_kind_of e = Some InvalidInput)) ∧
  (isinstance_int_long number = None →
     ∃ e, get_crystal_family number = Err e ∧
          error_kind_of e = Some InvalidInput).
Proof.
  split.
  - intros n Hn. unfold get_crystal_family. rewrite Hn.
    repeat split; intros Hr; repeat case_decide; try lia; try reflexivity;
      eexists; split; reflexivity.
  - intros Hn. unfold get_crystal_family. rewrite Hn.
    eexists; split; reflexivity.
Qed.

Lemma get_crystal_family_ranges_witness :
  get_crystal_family (PyInt 100) = Ok "t" ∧
  (∃ e, get_crystal_family (PyInt 231) = Err e ∧
        error_kind_of e = Some InvalidInput) ∧
  (∃ e, get_crystal_family (PyStr "P1") = Err e ∧
        error_kind_of e = Some InvalidInput).
Proof.
  split; [|split].
  - apply (proj1 (get_crystal_family_ranges (PyInt 100)) 100%Z eq_refl). lia.
  - apply (proj1 (get_crystal_family_ranges (PyInt 231)) 231%Z eq_refl). lia.
  - apply (proj2 (get_crystal_family_ranges (PyStr "P1"))). reflexivity.
Defined.

(** ** Matrix algebra *)

Lemma Z2Qc_0 : Z2Qc 0 = 0.
Proof. reflexivity. Qed.

Lemma Z2Qc_1 : Z2Qc 1 = 1.
Proof. reflexivity. Qed.

Lemma dot_mv_identity (v : vec3) : dot_mv identity v = v.
Proof.
  destruct v as [[x y] z]. unfold identity, np_array, dot_mv.
  rewrite Z2Qc_0, Z2Qc_1. by_ring.
Qed.

Lemma dot_mv_dot_mm (A B : mat3) (v : vec3) :
  dot_mv A (dot_mv B v) = dot_mv (dot_mm A B) v.
Proof.
  destruct A as [[[[a1 a2] a3] [[a4 a5] a6]] [[a7 a8] a9]].
  destruct B as [[[[b1 b2] b3] [[b4 b5] b6]] [[b7 b8] b9]].
  destruct v as [[x y] z]. unfold dot_mm, dot_mv, transpose.
  by_ring.
Qed.

Lemma transpose_involutive (M : mat3) : transpose (transpose M) = M.
Proof. by destruct M as [[[[a1 a2] a3] [[a4 a5] a6]] [[a7 a8] a9]]. Qed.

Lemma dot_mm_assoc (A B C : mat3) :
  dot_mm (dot_mm A B) C = dot_mm A (dot_mm B C).
Proof.
  destruct A as [[[[a1 a2] a3] [[a4 a5] a6]] [[a7 a8] a9]].
  destruct B as [[[[b1 b2] b3] [[b4 b5] b6]] [[b7 b8] b9]].
  destruct C as [[[[c1 c2] c3] [[c4 c5] c6]] [[c7 c8] c9]].
  unfold dot_mm, dot_mv, transpose. by_ring.
Qed.

Lemma dot_mm_identity_r (A : mat3) : dot_mm A identity = A.
Proof.
  destruct A as [[[[a1 a2] a3] [[a4 a5] a6]] [[a7 a8] a9]].
  unfold identity, np_array, dot_mm, dot_mv, transpose.
  rewrite Z2Qc_0, Z2Qc_1. by_ring.
Qed.

(** ** [get_P_matrix] *)

(** C4. For every Bravais lattice symbol that [get_P_matrix] accepts, [P] and
    [invP] are inverse to each other, so that transforming a coordinate
    triple or a lattice with one and then with the other gives it back. *)
Theorem get_P_matrix_inverse (b : string) (P invP : mat3) :
  get_P_matrix b = Ok (P, invP) →
  dot_mm P invP = identity ∧ dot_mm invP P = identity ∧
  (∀ v, dot_mv P (dot_mv invP v) = v) ∧
  (∀ v, dot_mv invP (dot_mv P v) = v) ∧
  (∀ lattice,
     transpose (dot_mm (transpose (transpose (dot_mm (transpose lattice) P)))
                  invP) = lattice).
Proof.
  intros H.
  assert (dot_mm P invP = identity ∧ dot_mm invP P = identity) as [H1 H2].
  { P_matrix_cases H; split; by_eval. }
  repeat split; try done.
  - intros v. by rewrite dot_mv_dot_mm, H1, dot_mv_identity.
  - intros v. by rewrite dot_mv_dot_mm, H2, dot_mv_identity.
  - intros lattice.
    by rewrite transpose_involutive, dot_mm_assoc, H1, dot_mm_identity_r,
      transpose_involutive.
Qed.

Lemma get_P_matrix_inverse_witness :
  ∃ P invP, get_P_matrix "hR" = Ok (P, invP) ∧
    dot_mm P invP = identity ∧ dot_mm invP P = identity.
Proof.
  eexists _, _. split; [reflexivity|].
  pose proof (get_P_matrix_inverse "hR" _ _ eq_refl) as (H1 & H2 & _).
  exact (conj H1 H2).
Defined.

(** C2, as written, fails: the determinant of [invP] for the face-centred
    symbol ["cF"] is not 2. *)
Lemma det_invP_cF_not_2 :
  ∃ P invP, get_P_matrix "cF" = Ok (P, invP) ∧ det invP ≠ Z2Qc 2.
Proof. eexists _, _. split; [reflexivity|]. by_eval. Qed.

(** C2, amended. For every Bravais lattice symbol that [get_P_matrix]
    accepts, [invP] is a matrix of integers, and its determinant, taken in
    the integers, is positive: 1 for cP, tP, hP, oP, mP; 2 for cI, tI, oI;
    4 for cF, oF; 2 for oC, oA, mC; 3 for hR.  In all cases it is one of 1,
    2, 3, 4.  (This is the determinant of the matrix; the float that
    [np.linalg.det] computes for it is next to it, and not always equal to
    it.) *)
Theorem invP_determinant (b : string) (P invP : mat3) :
  get_P_matrix b = Ok (P, invP) →
  ∃ (m : (Z * Z * Z) * (Z * Z * Z) * (Z * Z * Z)) (k : Z),
    invP = np_array m ∧ det_int m = k ∧ k ∈ [1; 2; 3; 4]%Z ∧
    ((b ∈ ["cP"; "tP"; "hP"; "oP"; "mP"] ∧ k = 1%Z) ∨
     (b ∈ ["cI"; "tI"; "oI"] ∧ k = 2%Z) ∨
     (b ∈ ["cF"; "oF"] ∧ k = 4%Z) ∨
     (b ∈ ["oC"; "oA"; "mC"] ∧ k = 2%Z) ∨
     (b = "hR" ∧ k = 3%Z)).
Proof.
  intros H. P_matrix_cases H.
  - exists ((1, 0, 0), (0, 1, 0), (0, 0, 1))%Z, 1%Z. split; [reflexivity|]. split; [reflexivity|].
    split; [by_eval|]. by left.
  - exists ((-1, 1, 1), (1, -1, 1), (1, 1, -1))%Z, 4%Z. split; [reflexivity|]. split; [reflexivity|].
    split; [by_eval|]. by right; right; left.
  - exists ((0, 1, 1), (1, 0, 1), (1, 1, 0))%Z, 2%Z. split; [reflexivity|]. split; [reflexivity|].
    split; [by_eval|]. by right; left.
  - exists ((1, 0, 1), (-1, 1, 1), (0, -1, 1))%Z, 3%Z. split; [reflexivity|]. split; [reflexivity|].
    split; [by_eval|]. by right; right; right; right.
  - exists ((1, -1, 0), (1, 1, 0), (0, 0, 1))%Z, 2%Z. split; [reflexivity|]. split; [reflexivity|].
    split; [by_eval|]. right; right; right; left. split; [|done].
    rewrite !elem_of_cons. tauto.
  - exists ((0, 1, -1), (0, 1, 1), (1, 0, 0))%Z, 2%Z. split; [reflexivity|]. split; [reflexivity|].
    split; [by_eval|]. right; right; right; left. split; [|done].
    rewrite !elem_of_cons. tauto.
  - exists ((1, 1, 0), (-1, 1, 0), (0, 0, 1))%Z, 2%Z. split; [reflexivity|]. split; [reflexivity|].
    split; [by_eval|]. right; right; right; left. split; [|done].
    rewrite !elem_of_cons. tauto.
Qed.

Lemma invP_determinant_witness :
  ∃ P invP, get_P_matrix "oF" = Ok (P, invP) ∧
    ∃ (m : (Z * Z * Z) * (Z * Z * Z) * (Z * Z * Z)) (k : Z),
      invP = np_array m ∧ det_int m = k ∧ k ∈ [1; 2; 3; 4]%Z.
Proof.
  eexists _, _. split; [reflexivity|].
  destruct (invP_determinant "oF" _ _ eq_refl) as (m & k & H1 & H2 & H3 & _).
  exists m, k. exact (conj H1 (conj H2 H3)).
Defined.

(** C3, as written, fails: [P] for the rhombohedral symbol ["hR"] has an
    entry outside of 0, 1, -1, 1/2, -1/2, 1/3, -1/3 (its first entry is
    2/3). *)
Lemma P_entries_hR_not_in_set :
  ∃ P invP, get_P_matrix "hR" = Ok (P, invP) ∧
    ¬ Forall (λ x, x ∈ [0; 1; -1; frac 1 2; frac (-1) 2; frac 1 3; frac (-1) 3])
        (entries P).
Proof. eexists _, _. split; [reflexivity|]. by_eval. Qed.

(** C3, amended. For every Bravais lattice symbol that [get_P_matrix]
    accepts, every entry of [P] is one of 0, 1, -1, 1/2, -1/2, 1/3, -1/3,
    2/3, -2/3, and every entry of [invP] is one of -1, 0, 1. *)
Theorem get_P_matrix_entries (b : string) (P invP : mat3) :
  get_P_matrix b = Ok (P, invP) →
  Forall (λ x, x ∈ [0; 1; -1; frac 1 2; frac (-1) 2; frac 1 3; frac (-1) 3;
                    frac 2 3; frac (-2) 3]) (entries P) ∧
  Forall (λ x, x ∈ [-1; 0; 1]) (entries invP).
Proof. intros H. P_matrix_cases H; split; by_eval. Qed.

Lemma get_P_matrix_entries_witness :
  ∃ P invP, get_P_matrix "hR" = Ok (P, invP) ∧
    Forall (λ x, x ∈ [-1; 0; 1]) (entries invP).
Proof.
  eexists _, _. split; [reflexivity|].
  exact (proj2 (get_P_matrix_entries "hR" _ _ eq_refl)).
Defined.

(** C5, as written, fails: the fourteen symbols do not fall into 11 groups
    with distinct matrix pairs. *)
Lemma get_P_matrix_not_11_groups :
  length (remove_dups (get_P_matrix <$> bravais_symbols)) ≠ 11%nat.
Proof. by_eval. Qed.

(** C5, amended. [get_P_matrix] depends on the symbol alone.  It accepts
    exactly the fourteen Bravais lattice symbols, which fall into exactly 7
    groups: cP, tP, hP, oP, mP, which share the identity pair; cF, oF, which
    share one pair; cI, tI, oI, which share one pair; and hR, oC, oA, mC,
    with one pair each.  Two symbols have the same pair of matrices exactly
    when they are in the same group.  For every other string
    [get_P_matrix] raises the [ValueError] for an invalid Bravais lattice,
    of the InvalidInput kind. *)
Theorem get_P_matrix_table :
  length bravais_symbols = 14%nat ∧ NoDup bravais_symbols ∧
  length bravais_groups = 7%nat ∧
  concat bravais_groups = bravais_symbols ∧
  (∀ a b, a ∈ bravais_symbols → b ∈ bravais_symbols →
     (get_P_matrix a = get_P_matrix b ↔
      ∃ g, g ∈ bravais_groups ∧ a ∈ g ∧ b ∈ g)) ∧
  length (remove_dups (get_P_matrix <$> bravais_symbols)) = 7%nat ∧
  (∀ b, b ∈ ["cP"; "tP"; "hP"; "oP"; "mP"] →
        get_P_matrix b = Ok (identity, identity)) ∧
  (∀ b, b ∈ bravais_symbols → ∃ P invP, get_P_matrix b = Ok (P, invP)) ∧
  (∀ b, b ∉ bravais_symbols →
        get_P_matrix b = Err (ValueError msg_bravais [FStr b]) ∧
        error_kind_of (ValueError msg_bravais [FStr b]) = Some InvalidInput).
Proof.
  split; [reflexivity|]. split; [by_eval|]. split; [reflexivity|].
  split; [reflexivity|]. split; [|split; [by_eval|]].
  { assert (Forall (λ a, Forall (λ b,
              get_P_matrix a = get_P_matrix b ↔
              Exists (λ g, a ∈ g ∧ b ∈ g) bravais_groups)
              bravais_symbols) bravais_symbols) as Hall by by_eval.
    intros a b Ha Hb. rewrite Forall_forall in Hall.
    specialize (Hall a Ha). rewrite Forall_forall in Hall.
    rewrite (Hall b Hb), Exists_exists. done. }
  split; [|split].
  - intros b Hb. unfold get_P_matrix. by rewrite decide_True.
  - intros b Hb. unfold bravais_symbols in Hb.
    symbol_cases; eexists _, _; reflexivity.
  - intros b Hb. split; [|reflexivity].
    unfold get_P_matrix, bravais_symbols in *.
    repeat case_decide; try done; exfalso; apply Hb; symbol_cases; by_eval.
Qed.

Lemma get_P_matrix_table_witness :
  get_P_matrix "tP" = Ok (identity, identity) ∧
  get_P_matrix "cI" = get_P_matrix "oI" ∧
  get_P_matrix "cF" ≠ get_P_matrix "oC" ∧
  get_P_matrix "fcc" = Err (ValueError msg_bravais [FStr "fcc"]).
Proof.
  destruct get_P_matrix_table
    as (_ & _ & _ & _ & Hsame & _ & Hid & _ & Herr).
  split; [|split; [|split]].
  - apply Hid. by_eval.
  - apply Hsame; [by_eval..|]. exists ["cI"; "tI"; "oI"]. split; by_eval.
  - intros Heq. apply Hsame in Heq; [|by_eval..].
    destruct Heq as (g & Hg & Ha & Hb). revert Ha Hb.
    unfold bravais_groups in Hg. symbol_cases; by_eval.
  - apply Herr. by_eval.
Defined.

(** ** The result monad *)

Lemma bind_Ok {A B} (f : A → result B) (m : result A) (b : B) :
  m ≫= f = Ok b ↔ ∃ a, m = Ok a ∧ f a = Ok b.
Proof.
  destruct m as [a|e]; simpl; split.
  - eauto.
  - by intros (a' & [= <-] & ?).
  - done.
  - by intros (a' & ? & ?).
Qed.

Lemma mapM_Ok {A B} (f : A → result B) (l : list A) (k : list B) :
  mapM f l = Ok k ↔ Forall2 (λ x y, f x = Ok y) l k.
Proof.
  revert k. induction l as [|x l IH]; intros k; simpl.
  - split; [intros [= <-]; constructor | by inversion 1].
  - rewrite bind_Ok. split.
    + intros (y & Hy & Hk). apply bind_Ok in Hk as (k' & Hk' & [= <-]).
      constructor; [done|]. by apply IH.
    + inversion 1 as [|? y ? k' Hy Hk']; subst.
      exists y. split; [done|]. apply IH in Hk'. by rewrite Hk'.
Qed.

Lemma mapM_Ok_fmap {A B} (f : A → result B) (g : A → B) (l : list A) :
  Forall (λ x, f x = Ok (g x)) l → mapM f l = Ok (g <$> l).
Proof.
  intros Hl. apply mapM_Ok. induction Hl; constructor; auto.
Qed.

Lemma fancy_index_Ok {A} (a : list A) (idx : list nat) (k : list A) :
  fancy_index a idx = Ok k ↔
  idx ≠ [] ∧ Forall2 (λ i x, a !! i = Some x) idx k.
Proof.
  unfold fancy_index. case_decide as Hidx.
  - split; [done|]. by intros [? _].
  - rewrite mapM_Ok. split.
    + intros H. split; [done|]. eapply Forall2_impl; [exact H|]. simpl.
      intros i x. destruct (a !! i); congruence.
    + intros [_ H]. eapply Forall2_impl; [exact H|]. simpl.
      intros i x. destruct (a !! i); congruence.
Qed.

Lemma fancy_index_Ok_1 {A} (a : list A) (idx : list nat) (k : list A) :
  fancy_index a idx = Ok k → Forall2 (λ i x, a !! i = Some x) idx k.
Proof. by intros [_ H]%fancy_index_Ok. Qed.

Lemma fancy_index_Ok_2 {A} (a : list A) (idx : list nat) (k : list A) :
  idx ≠ [] → Forall2 (λ i x, a !! i = Some x) idx k →
  fancy_index a idx = Ok k.
Proof. intros. by apply fancy_index_Ok. Qed.

Lemma fancy_index_seq {A} (a : list A) :
  a ≠ [] → fancy_index a (seq 0 (length a)) = Ok a.
Proof.
  intros Ha. apply fancy_index_Ok_2.
  - by destruct a.
  - apply Forall2_same_length_lookup_2.
    + by rewrite length_seq.
    + intros i j x [-> Hi]%lookup_seq Hx. done.
Qed.

(** ** The rows of [all_match] and the groups *)

Lemma zip_with_fmap_same {A B C D} (f : B → C → D) (g : A → B) (h : A → C)
    (l : list A) :
  zip_with f (g <$> l) (h <$> l) = (λ x, f (g x) (h x)) <$> l.
Proof. induction l as [|x l IH]; csimpl; [done|]. by f_equal. Qed.

Lemma all_match_of_rows (pp : list vec3) :
  all_match_of pp = (λ p, coincident p <$> pp) <$> pp.
Proof.
  unfold all_match_of, logical_and, axis_match, column0, column1, column2.
  rewrite <-!list_fmap_compose, !zip_with_fmap_same.
  apply list_fmap_ext. intros _ p _. simpl.
  rewrite <-!list_fmap_compose, !zip_with_fmap_same.
  unfold coincident, compose. reflexivity.
Qed.

Lemma group_of_equivalent_atoms_rows (pp : list vec3) :
  group_of_equivalent_atoms_of (all_match_of pp) = group_of pp <$> pp.
Proof.
  unfold group_of_equivalent_atoms_of. rewrite all_match_of_rows.
  rewrite length_fmap, <-list_fmap_compose. done.
Qed.

Lemma elem_of_bool_index_seq {A} (f : A → bool) (l : list A) (s j : nat) :
  j ∈ bool_index (seq s (length l)) (f <$> l) ↔
  (s ≤ j)%nat ∧ ∃ q, l !! (j - s)%nat = Some q ∧ f q = true.
Proof.
  revert s. induction l as [|x l IH]; intros s; simpl.
  - rewrite elem_of_nil. split; [done|]. by intros (_ & q & Hq & _).
  - assert (j ∈ bool_index (seq (S s) (length l)) (f <$> l) ↔
            (s < j)%nat ∧ ∃ q, (x :: l) !! (j - s)%nat = Some q ∧ f q = true)
      as Hrec.
    { rewrite IH. split.
      - intros (Hj & q & Hq & Hf). split; [lia|]. exists q. split; [|done].
        replace (j - s)%nat with (S (j - S s)) by lia. done.
      - intros (Hj & q & Hq & Hf). split; [lia|]. exists q. split; [|done].
        replace (j - s)%nat with (S (j - S s)) in Hq by lia. done. }
    destruct (f x) eqn:Hx.
    + rewrite elem_of_cons, Hrec. split.
      * intros [->|[Hj Hq]]; [|split; [lia|done]].
        split; [lia|]. exists x. by rewrite Nat.sub_diag.
      * intros (Hj & Hq). destruct (decide (j = s)); [by left|right].
        split; [lia|done].
    + rewrite Hrec. split.
      * intros [Hj Hq]. split; [lia|done].
      * intros (Hj & q & Hq & Hf). destruct (decide (j = s)) as [->|].
        { rewrite Nat.sub_diag in Hq. simplify_eq/=. congruence. }
        split; [lia|eauto].
Qed.

Lemma bool_index_seq_sorted (mask : list bool) (s n : nat) :
  StronglySorted lt (bool_index (seq s n) mask) ∧
  Forall (le s) (bool_index (seq s n) mask).
Proof.
  revert s mask. induction n as [|n IH]; intros s mask; simpl.
  - split; constructor.
  - destruct mask as [|b mask]; [split; constructor|].
    destruct (IH (S s) mask) as [Hs Hle].
    assert (Forall (le s) (bool_index (seq (S s) n) mask)) as Hle'.
    { eapply Forall_impl; [done|]. simpl. lia. }
    destruct b; [|done]. split.
    + constructor; [done|]. eapply Forall_impl; [exact Hle|]. simpl. lia.
    + constructor; [lia|done].
Qed.

Lemma elem_of_group_of (pp : list vec3) (p : vec3) (j : nat) :
  j ∈ group_of pp p ↔ ∃ q, pp !! j = Some q ∧ coincident p q = true.
Proof.
  unfold group_of. rewrite elem_of_bool_index_seq, Nat.sub_0_r.
  split; [by intros [_ H]|]. intros H. split; [lia|done].
Qed.

Lemma group_of_sorted (pp : list vec3) (p : vec3) :
  StronglySorted lt (group_of pp p).
Proof. apply bool_index_seq_sorted. Qed.

Lemma close_mod1_refl (a : Qc) : close_mod1 a a = true.
Proof.
  unfold close_mod1. replace (a - a) with 0 by ring.
  by_eval.
Qed.

Lemma coincident_refl (p : vec3) : coincident p p = true.
Proof. unfold coincident. by rewrite !close_mod1_refl. Qed.

(** Every atom is within the tolerance of itself, whatever its (finite)
    coordinates:
    the diagonal of [all_match] is [True], so that row [i] of
    [group_of_equivalent_atoms] contains [i] and no group is empty. *)
Theorem all_match_diagonal (pp : list vec3) (i : nat) :
  (i < length pp)%nat →
  all_match_of pp !! i ≫= (.!! i) = Some true ∧
  ∃ g, group_of_equivalent_atoms_of (all_match_of pp) !! i = Some g ∧ i ∈ g.
Proof.
  intros [p Hp]%lookup_lt_is_Some. split.
  - rewrite all_match_of_rows, list_lookup_fmap, Hp. simpl.
    rewrite list_lookup_fmap, Hp. simpl. f_equal. apply coincident_refl.
  - exists (group_of pp p). split.
    + by rewrite group_of_equivalent_atoms_rows, list_lookup_fmap, Hp.
    + apply elem_of_group_of. exists p. split; [done|apply coincident_refl].
Qed.

Lemma all_match_diagonal_witness :
  all_match_of [(0, 0, 0); (half, half, 0)] !! 1%nat ≫= (.!! 1%nat)
    = Some true ∧
  ∃ g, group_of_equivalent_atoms_of
         (all_match_of [(0, 0, 0); (half, half, 0)]) !! 1%nat = Some g ∧
       1%nat ∈ g.
Proof.
  apply (all_match_diagonal [(0, 0, 0); (half, half, 0)] 1). simpl. lia.
Defined.




(** ** [Counter] *)

Section Counter.
Context `{Countable K}.
Implicit Types (l : list K) (k : K) (m : gmap K nat).

Lemma occurrences_cons k x l :
  occurrences k (x :: l) =
    if decide (k = x) then S (occurrences k l) else occurrences k l.
Proof.
  unfold occurrences. rewrite filter_cons. by case_decide.
Qed.

Lemma occurrences_pos k l : (0 < occurrences k l)%nat ↔ k ∈ l.
Proof.
  induction l as [|x l IH].
  - rewrite elem_of_nil. unfold occurrences. simpl. lia.
  - rewrite occurrences_cons, elem_of_cons. case_decide; [|tauto].
    split; [by left|lia].
Qed.

Lemma foldl_count_lookup l m k :
  foldl count_step m l !! k =
    if decide (k ∈ l) then Some (default 0%nat (m !! k) + occurrences k l)%nat
    else m !! k.
Proof.
  revert m. induction l as [|x l IH]; intros m.
  - cbn [foldl]. destruct (decide (k ∈ [])) as [Hk|_]; [|done].
    by apply elem_of_nil in Hk.
  - cbn [foldl]. rewrite IH, occurrences_cons. unfold count_step.
    destruct (decide (k = x)) as [->|Hne].
    + rewrite lookup_insert_eq. simpl.
      destruct (decide (x ∈ x :: l)) as [_|[]]; [|by left].
      destruct (decide (x ∈ l)) as [Hl|Hl]; f_equal; [lia|].
      destruct (occurrences x l) eqn:Ho; [lia|].
      exfalso. apply Hl, occurrences_pos. lia.
    + rewrite lookup_insert_ne by done.
      destruct (decide (k ∈ l)) as [Hl|Hl];
        destruct (decide (k ∈ x :: l)) as [Hl'|Hl']; try done.
      * exfalso. apply Hl'. by right.
      * exfalso. apply elem_of_cons in Hl' as [?|?]; done.
Qed.

Lemma Counter_lookup l k :
  Counter l !! k = if decide (k ∈ l) then Some (occurrences k l) else None.
Proof.
  unfold Counter. rewrite foldl_count_lookup, lookup_empty. done.
Qed.

Lemma Counter_lookup_Some l k n :
  Counter l !! k = Some n ↔ k ∈ l ∧ n = occurrences k l.
Proof.
  rewrite Counter_lookup. case_decide as Hk.
  - split; [by intros [= <-]|by intros [_ ->]].
  - split; [done|by intros [? _]].
Qed.

Lemma elem_of_Counter_keys l k :
  k ∈ (map_to_list (Counter l)).*1 ↔ k ∈ l.
Proof.
  rewrite list_elem_of_fmap. split.
  - intros ([k' n] & -> & Hk). apply elem_of_map_to_list in Hk.
    by apply Counter_lookup_Some in Hk as [? _].
  - intros Hk. exists (k, occurrences k l). split; [done|].
    apply elem_of_map_to_list, Counter_lookup_Some. done.
Qed.
End Counter.

(** ** Ordering of tuples *)

#[local] Instance tuple_le_total : Total tuple_le.
Proof.
  intros a. unfold tuple_le. induction a as [|x a IH]; intros [|y b]; simpl; auto.
  repeat case_decide; subst; first [lia | auto].
Qed.

#[local] Instance tuple_le_trans : Transitive tuple_le.
Proof.
  intros a. unfold tuple_le.
  induction a as [|x a IH]; intros [|y b] [|z c]; simpl; try done.
  repeat case_decide; try done; try lia. subst. apply IH.
Qed.

#[local] Instance tuple_le_antisymm : AntiSymm (=) tuple_le.
Proof.
  intros a. unfold tuple_le.
  induction a as [|x a IH]; intros [|y b]; simpl; try done.
  repeat case_decide; try done; try lia. subst.
  intros ??. f_equal. by apply IH.
Qed.

Lemma sorted_Permutation (l : list (list nat)) : sorted l ≡ₚ l.
Proof. apply merge_sort_Permutation. Qed.

Lemma sorted_StronglySorted (l : list (list nat)) :
  StronglySorted tuple_le (sorted l).
Proof. apply (StronglySorted_merge_sort _). Qed.

Lemma elem_of_sorted (l : list (list nat)) (g : list nat) :
  g ∈ sorted l ↔ g ∈ l.
Proof. by rewrite sorted_Permutation. Qed.

(** A list in order is the sorted form of each of its permutations. *)
Lemma sorted_unique (l k : list (list nat)) :
  StronglySorted tuple_le k → l ≡ₚ k → sorted l = k.
Proof.
  intros Hk Hl. apply (StronglySorted_unique tuple_le).
  - apply sorted_StronglySorted.
  - done.
  - by rewrite sorted_Permutation.
Qed.

(** ** The groups and the count check *)

Lemma elem_of_groups (rows : list (list nat)) (g : list nat) :
  g ∈ sorted (map_to_list (Counter rows)).*1 ↔ g ∈ rows.
Proof. by rewrite elem_of_sorted, elem_of_Counter_keys. Qed.

Lemma NoDup_groups (rows : list (list nat)) :
  NoDup (sorted (map_to_list (Counter rows)).*1).
Proof. rewrite sorted_Permutation. apply NoDup_fst_map_to_list. Qed.

Lemma wrong_count_of_nil (rows : list (list nat)) (volume_ratio : Z) :
  wrong_count_of (Counter rows) volume_ratio = [] ↔
  ∀ g, g ∈ rows → Z.of_nat (occurrences g rows) = volume_ratio.
Proof.
  unfold wrong_count_of. split.
  - intros Hnil%fmap_nil_inv g Hg.
    destruct (decide (Z.of_nat (occurrences g rows) = volume_ratio)) as [|Hne];
      [done|].
    exfalso.
    eapply (filter_nil_not_elem_of _ _ (g, occurrences g rows) Hnil); [done|].
    apply elem_of_map_to_list, Counter_lookup_Some. done.
  - intros Hall.
    assert (filter (λ gc : list nat * nat, Z.of_nat gc.2 ≠ volume_ratio)
              (map_to_list (Counter rows)) = []) as ->; [|done].
    apply elem_of_nil_inv. intros [g n] [Hn Hg]%list_elem_of_filter.
    apply elem_of_map_to_list, Counter_lookup_Some in Hg as [Hg ->].
    simpl in Hn. apply Hn. by apply Hall.
Qed.

(** ** The check of the types and the choice of the atoms *)

Lemma mapM_Ok_Forall {A B} (f : A → result B) (Q : B → Prop) (l : list A) :
  Forall (λ x, ∃ y, f x = Ok y ∧ Q y) l →
  ∃ k, mapM f l = Ok k ∧ Forall Q k.
Proof.
  induction 1 as [|x l (y & Hy & HQ) _ (k & Hk & HQk)].
  - exists []. split; [done|constructor].
  - exists (y :: k). split; [|by constructor].
    apply mapM_Ok. constructor; [done|]. by apply mapM_Ok.
Qed.

Lemma tuple_first_Ok (g : list nat) (r : nat) :
  tuple_first g = Ok r ↔ head g = Some r.
Proof. destruct g; simpl; split; congruence. Qed.

Lemma elem_of_enumerate {A} (l : list A) (i : nat) (x : A) :
  (i, x) ∈ enumerate l ↔ l !! i = Some x.
Proof.
  unfold enumerate. rewrite elem_of_lookup_imap. split.
  - by intros (i' & x' & [= -> ->] & Hx).
  - intros Hx. by exists i, x.
Qed.

Section choose_representatives_facts.
Context {T : Type} `{EqDecision T}.
Implicit Types (types : list T) (pp : list vec3) (groups : list (list nat)).

Lemma type_set_Ok types g us :
  type_set types g = Ok us ↔
  ∃ ts, fancy_index types g = Ok ts ∧ us = remove_dups ts.
Proof.
  unfold type_set. rewrite bind_Ok. split.
  - intros (ts & Hts & [= <-]). eauto.
  - intros (ts & Hts & ->). eauto.
Qed.

Lemma problematic_groups_idx_nil (unique_types : list (list T)) :
  (filter (λ it : nat * list T, length it.2 ≠ 1%nat)
     (enumerate unique_types)).*1 = [] ↔
  Forall (λ ts, length ts = 1%nat) unique_types.
Proof.
  rewrite Forall_lookup. split.
  - intros Hnil%fmap_nil_inv i ts Hts.
    destruct (decide (length ts = 1%nat)) as [|Hne]; [done|]. exfalso.
    eapply (filter_nil_not_elem_of _ _ (i, ts) Hnil); [done|].
    by apply elem_of_enumerate.
  - intros Hall.
    assert (filter (λ it : nat * list T, length it.2 ≠ 1%nat)
              (enumerate unique_types) = []) as ->; [|done].
    apply elem_of_nil_inv. intros [i ts] [Hn Hi]%list_elem_of_filter.
    apply elem_of_enumerate in Hi. apply Hn. by eapply Hall.
Qed.


Lemma choose_representatives_Ok types pp groups idx ps ts :
  Forall (λ g, ∃ us, fancy_index types g = Ok us ∧
                     length (remove_dups us) = 1%nat) groups →
  mapM tuple_first groups = Ok idx →
  fancy_index pp idx = Ok ps →
  fancy_index types idx = Ok ts →
  choose_representatives types pp groups = Ok (ps, ts).
Proof.
  intros Hgroups Hidx Hps Hts. unfold choose_representatives.
  destruct (mapM_Ok_Forall (type_set types)
              (λ us, length us = 1%nat) groups) as (uts & Huts & Hlen).
  { eapply Forall_impl; [exact Hgroups|]. intros g (us & Hus & Hl).
    exists (remove_dups us). split; [|done].
    apply type_set_Ok. eauto. }
  rewrite Huts. simpl.
  apply problematic_groups_idx_nil in Hlen. rewrite Hlen. simpl.
  rewrite Hidx. simpl. rewrite Hps. simpl. rewrite Hts. done.
Qed.

Lemma choose_representatives_inv types pp groups ps ts :
  choose_representatives types pp groups = Ok (ps, ts) →
  Forall (λ g, ∃ us, fancy_index types g = Ok us ∧
                     length (remove_dups us) = 1%nat) groups ∧
  ∃ idx, mapM tuple_first groups = Ok idx ∧
         fancy_index pp idx = Ok ps ∧ fancy_index types idx = Ok ts.
Proof.
  unfold choose_representatives. intros H.
  apply bind_Ok in H as (uts & Huts & H).
  apply bind_Ok in H as ([] & Hcheck & H).
  apply bind_Ok in H as (idx & Hidx & H).
  apply bind_Ok in H as (ps' & Hps & H).
  apply bind_Ok in H as (ts' & Hts & [= <- <-]).
  split; [|eauto].
  case_decide as Hnil; [|done].
  apply problematic_groups_idx_nil in Hnil.
  apply mapM_Ok in Huts. rewrite Forall_lookup. intros i g Hg.
  destruct (Forall2_lookup_l _ _ _ _ _ Huts Hg) as (us & Hus & Hgt).
  apply (type_set_Ok types) in Hgt as (ts0 & Hts0 & ->).
  exists ts0. split; [done|]. by eapply Forall_lookup_1 in Hnil.
Qed.

End choose_representatives_facts.

(** ** [get_primitive] *)

Lemma remove_dups_length_1 {A} `{EqDecision A} (l : list A) :
  length (remove_dups l) = 1%nat ↔ ∃ x, x ∈ l ∧ ∀ y, y ∈ l → y = x.
Proof.
  pose proof (NoDup_remove_dups l) as Hnd.
  assert (∀ y, y ∈ remove_dups l ↔ y ∈ l) as Hel
    by (intros y; apply elem_of_remove_dups).
  destruct (remove_dups l) as [|a [|b d]] eqn:Hd; simpl.
  - split; [done|]. intros (x & Hx & _). apply Hel in Hx.
    by apply elem_of_nil in Hx.
  - split; [|done]. intros _. exists a. split.
    + apply Hel. by left.
    + intros y Hy%Hel. by apply list_elem_of_singleton in Hy.
  - split; [done|]. intros (x & _ & Hall). exfalso.
    assert (a = x) as -> by (apply Hall, Hel; left).
    assert (b = x) as -> by (apply Hall, Hel; right; left).
    apply NoDup_cons in Hnd as [Hnd _]. apply Hnd. by left.
Qed.

Lemma occurrences_NoDup `{EqDecision K} (k : K) (l : list K) :
  NoDup l → k ∈ l → occurrences k l = 1%nat.
Proof.
  induction 1 as [|x l Hx Hnd IH]; intros Hk.
  - by apply elem_of_nil in Hk.
  - rewrite occurrences_cons. case_decide as Heq.
    + subst x. destruct (occurrences k l) eqn:Ho; [done|].
      exfalso. apply Hx, occurrences_pos. lia.
    + apply IH. apply elem_of_cons in Hk as [?|?]; done.
Qed.

Lemma sorted_singleton (l : list nat) (i : nat) :
  StronglySorted lt l → (∀ j, j ∈ l ↔ j = i) → l = [i].
Proof.
  intros Hs Hl. destruct l as [|a [|b l]].
  - exfalso. eapply elem_of_nil, Hl. done.
  - f_equal. apply Hl. by left.
  - exfalso. assert (a = i) as -> by (apply Hl; left).
    assert (b = i) as -> by (apply Hl; right; left).
    apply StronglySorted_inv in Hs as [_ Hs]. apply Forall_cons in Hs as [Hs _].
    lia.
Qed.

Lemma dot_rows_identity (positions : list vec3) :
  dot_rows identity positions = positions.
Proof.
  unfold dot_rows. rewrite <-(list_fmap_id positions) at 2.
  apply list_fmap_ext. intros _ p _. apply dot_mv_identity.
Qed.



Section get_primitive_facts.
Context {T : Type} `{EqDecision T}.
Implicit Types (types : list T) (positions pp : list vec3) (lattice : mat3).

(** [get_primitive] after the call of [get_P_matrix], in terms of the rows
    and the groups of the transformed positions. *)
Lemma get_primitive_unfold lattice positions types b P invP :
  get_P_matrix b = Ok (P, invP) →
  get_primitive (lattice, positions, types) b =
    let pp := dot_rows invP positions in
    if decide (wrong_count_of (Counter (rows_of pp)) (py_int (det invP)) = [])
    then
      '(ps, ts) ← choose_representatives types pp (groups_of pp);
      mret ((transpose (dot_mm (transpose lattice) P), ps, ts), (P, invP))
    else Err (AttributeError msg_keys).
Proof.
  intros HP. unfold get_primitive. rewrite HP. simpl.
  rewrite group_of_equivalent_atoms_rows. fold (rows_of (dot_rows invP positions)).
  case_decide; done.
Qed.

Lemma get_primitive_count_failure lattice positions types b P invP g :
  get_P_matrix b = Ok (P, invP) →
  g ∈ rows_of (dot_rows invP positions) →
  Z.of_nat (occurrences g (rows_of (dot_rows invP positions)))
    ≠ py_int (det invP) →
  get_primitive (lattice, positions, types) b = Err (AttributeError msg_keys).
Proof.
  intros HP Hg Hne. rewrite (get_primitive_unfold _ _ _ _ _ _ HP). simpl.
  case_decide as Hnil; [|done].
  exfalso. apply Hne. by eapply wrong_count_of_nil.
Qed.

Lemma get_primitive_Ok_inv lattice positions types b s' Ps :
  get_primitive (lattice, positions, types) b = Ok (s', Ps) →
  ∃ P invP ps ts,
    get_P_matrix b = Ok (P, invP) ∧ Ps = (P, invP) ∧
    s' = (transpose (dot_mm (transpose lattice) P), ps, ts) ∧
    wrong_count_of (Counter (rows_of (dot_rows invP positions)))
      (py_int (det invP)) = [] ∧
    choose_representatives types (dot_rows invP positions)
      (groups_of (dot_rows invP positions)) = Ok (ps, ts).
Proof.
  intros Hget. destruct (get_P_matrix b) as [[P invP]|e] eqn:HP.
  - rewrite (get_primitive_unfold _ _ _ _ _ _ HP) in Hget. simpl in Hget.
    case_decide as Hnil; [|done].
    apply bind_Ok in Hget as ([ps ts] & Hch & [= <- <-]).
    exists P, invP, ps, ts. done.
  - unfold get_primitive in Hget. rewrite HP in Hget. done.
Qed.

End get_primitive_facts.

Lemma singletons_sorted (s n : nat) :
  StronglySorted tuple_le ((λ i, [i]) <$> seq s n).
Proof.
  revert s. induction n as [|n IH]; intros s; csimpl; constructor; [apply IH|].
  apply Forall_fmap, Forall_forall. intros j [Hj _]%elem_of_seq.
  unfold tuple_le. simpl. by rewrite decide_True by lia.
Qed.

Lemma singletons_NoDup (s n : nat) : NoDup ((λ i : nat, [i]) <$> seq s n).
Proof. apply NoDup_fmap_2; [by intros i j [= ->]|apply NoDup_seq]. Qed.

Lemma mapM_tuple_first_singletons (l : list nat) :
  mapM tuple_first ((λ i, [i]) <$> l) = Ok l.
Proof.
  apply mapM_Ok. induction l; csimpl; constructor; done.
Qed.

(** The rows of pairwise distinct atoms are the singletons, in order. *)
Lemma rows_of_singletons (pp : list vec3) :
  (∀ i j p q, i ≠ j → pp !! i = Some p → pp !! j = Some q →
              coincident p q = false) →
  rows_of pp = (λ i, [i]) <$> seq 0 (length pp).
Proof.
  intros Hdistinct. unfold rows_of. apply list_eq. intros i.
  rewrite !list_lookup_fmap.
  destruct (pp !! i) as [p|] eqn:Hp; simpl.
  - rewrite lookup_seq_lt by (by eapply lookup_lt_Some). simpl. f_equal.
    apply sorted_singleton; [apply group_of_sorted|]. intros j.
    rewrite elem_of_group_of. split.
    + intros (q & Hq & Hpq). destruct (decide (j = i)) as [|Hne]; [done|].
      rewrite (Hdistinct i j p q) in Hpq; [done|congruence|done|done].
    + intros ->. eauto using coincident_refl.
  - rewrite lookup_seq_ge; [done|]. by apply lookup_ge_None.
Qed.

Lemma groups_of_NoDup_rows (pp : list vec3) :
  NoDup (rows_of pp) → StronglySorted tuple_le (rows_of pp) →
  groups_of pp = rows_of pp.
Proof.
  intros Hnd Hs. unfold groups_of. apply sorted_unique; [done|].
  apply NoDup_Permutation; [apply NoDup_fst_map_to_list|done|].
  intros g. apply elem_of_Counter_keys.
Qed.

(** C1. For the conventional face-centred cubic cell (symbol ["cF"], four
    atoms of one type [t] at (0,0,0), (1/2,1/2,0), (1/2,0,1/2), (0,1/2,1/2))
    [get_primitive] succeeds: [get_P_matrix] gives the cF matrices, the
    volume ratio [int(det(invP))] is 4, and the primitive structure has
    exactly one atom, of type [t], at (0,0,0); the returned pair of matrices
    is the cF pair. *)
Theorem get_primitive_fcc {T : Type} `{EqDecision T}
    (lattice : mat3) (t : T) :
  let P := scale (Z2Qc 1 / Z2Qc 2)
             (np_array ((0, 1, 1), (1, 0, 1), (1, 1, 0))%Z) in
  let invP := np_array ((-1, 1, 1), (1, -1, 1), (1, 1, -1))%Z in
  get_P_matrix "cF" = Ok (P, invP) ∧
  P = ((0, half, half), (half, 0, half), (half, half, 0)) ∧
  py_int (det invP) = 4%Z ∧
  get_primitive (lattice, fcc_positions, [t; t; t; t]) "cF" =
    Ok ((transpose (dot_mm (transpose lattice) P), [(0, 0, 0)], [t]),
        (P, invP)).
Proof.
  intros P invP. split; [reflexivity|]. split; [by_eval|].
  split; [by_eval|].
  rewrite (get_primitive_unfold lattice fcc_positions [t; t; t; t] "cF"
             P invP eq_refl). cbv zeta.
  assert (wrong_count_of (Counter (rows_of (dot_rows invP fcc_positions)))
            (py_int (det invP)) = []) as Hw by by_eval.
  assert (groups_of (dot_rows invP fcc_positions) = [[0; 1; 2; 3]]%nat)
    as Hg by by_eval.
  rewrite decide_True by exact Hw. rewrite Hg.
  rewrite (choose_representatives_Ok _ _ _ [0%nat] [(0, 0, 0)] [t]);
    [done| | | |].
  - constructor; [|constructor]. exists [t; t; t; t]. split; [done|].
    apply remove_dups_length_1. exists t. split; [by left|].
    intros y Hy.
    repeat (apply elem_of_cons in Hy as [->|Hy]; [reflexivity|]).
    apply elem_of_nil in Hy. destruct Hy.
  - done.
  - by_eval.
  - done.
Qed.

(** C6, what the code does. Whenever a row of [group_of_equivalent_atoms]
    is counted a number of times that differs from the volume ratio,
    [get_primitive] does not raise the [ValueError] of the count check: it
    evaluates [wrong_count.keys()] on a list and raises an
    [AttributeError], which is none of the three kinds of error of the
    interface. *)
Theorem get_primitive_count_error {T : Type} `{EqDecision T}
    (lattice : mat3) (positions : list vec3) (types : list T) (b : string)
    (P invP : mat3) (g : list nat) :
  get_P_matrix b = Ok (P, invP) →
  g ∈ rows_of (dot_rows invP positions) →
  Z.of_nat (occurrences g (rows_of (dot_rows invP positions)))
    ≠ py_int (det invP) →
  get_primitive (lattice, positions, types) b
    = Err (AttributeError msg_keys) ∧
  error_kind_of (AttributeError msg_keys) = None.
Proof.
  intros HP Hg Hne. split; [|done].
  by eapply get_primitive_count_failure.
Qed.

Lemma get_primitive_count_error_witness :
  get_primitive (identity, [(0, 0, 0)], [7%nat]) "cF"
    = Err (AttributeError msg_keys) ∧
  error_kind_of (AttributeError msg_keys) = None.
Proof.
  apply (get_primitive_count_error identity [(0, 0, 0)] [7%nat] "cF" _ _
           [0%nat] eq_refl); by_eval.
Defined.






(** C10, as written, fails.  With no atom at all, the array of the chosen
    indices is an array of floats, and [get_primitive] raises [IndexError].
    And the test of the tolerance is not symmetric: for the float64 numbers
    0.002 and 0.002001, the second is not within the tolerance of the first
    along x, but the first is within the tolerance of the second; the row of
    the second atom, (0, 1), then becomes a group whose first atom is atom
    0, which is returned twice. *)
Lemma get_primitive_identity_fails :
  let a0 := float64 (Z2Qc 2 / Z2Qc 1000) in
  let a1 := float64 (Z2Qc 2001 / Z2Qc 1000000) in
  get_primitive (identity, [], @nil nat) "cP"
    = Err (IndexError msg_index_type []) ∧
  coincident (a0, 0, 0) (a1, 0, 0) = false ∧
  coincident (a1, 0, 0) (a0, 0, 0) = true ∧
  get_primitive (identity, [(a0, 0, 0); (a1, 0, 0)], [7%nat; 7%nat]) "cP"
    = Ok ((identity, [(a0, 0, 0); (a0, 0, 0)], [7%nat; 7%nat]),
          (identity, identity)).
Proof. intros a0 a1. repeat split; by_eval. Qed.

(** C10, amended. For a Bravais lattice symbol among cP, tP, hP, oP, mP and
    a structure with at least one atom, as many types as positions, and in
    which, for every ordered pair of distinct atoms, the second is not
    within the tolerance of the first on at least one axis,
    [get_primitive] succeeds and returns the lattice, the positions and the
    types of the input, in the same order, with the pair of matrices
    (I, I). *)
Theorem get_primitive_identity {T : Type} `{EqDecision T}
    (lattice : mat3) (positions : list vec3) (types : list T) (b : string) :
  b ∈ ["cP"; "tP"; "hP"; "oP"; "mP"] →
  positions ≠ [] →
  length types = length positions →
  (∀ i j p q, i ≠ j → positions !! i = Some p → positions !! j = Some q →
              coincident p q = false) →
  get_primitive (lattice, positions, types) b
    = Ok ((lattice, positions, types), (identity, identity)).
Proof.
  intros Hb Hne Hlen Hdistinct.
  assert (get_P_matrix b = Ok (identity, identity)) as HP
    by (unfold get_P_matrix; by rewrite decide_True).
  rewrite (get_primitive_unfold _ _ _ _ _ _ HP). cbv zeta.
  rewrite dot_rows_identity, dot_mm_identity_r, transpose_involutive.
  pose proof (rows_of_singletons positions Hdistinct) as Hrows.
  assert (groups_of positions = rows_of positions) as Hgroups.
  { apply groups_of_NoDup_rows; rewrite Hrows;
      [apply singletons_NoDup|apply singletons_sorted]. }
  rewrite decide_True; last first.
  { apply wrong_count_of_nil. intros g Hg.
    rewrite occurrences_NoDup; [by_eval| |done].
    rewrite Hrows. apply singletons_NoDup. }
  rewrite Hgroups, Hrows.
  rewrite (choose_representatives_Ok _ _ _ (seq 0 (length positions))
             positions types); [done| | | |].
  - apply Forall_fmap, Forall_forall. intros i [_ Hi]%elem_of_seq.
    unfold compose.
    destruct (lookup_lt_is_Some_2 types i) as [t Ht]; [lia|].
    exists [t]. split.
    + apply fancy_index_Ok_2; [done|]. by repeat constructor.
    + apply remove_dups_length_1. exists t. split; [by left|].
      by intros y ->%list_elem_of_singleton.
  - apply mapM_tuple_first_singletons.
  - by apply fancy_index_seq.
  - rewrite <-Hlen. apply fancy_index_seq. intros ->. by destruct positions.
Qed.

Lemma get_primitive_identity_witness :
  let lattice := np_array ((4, 0, 0), (0, 4, 0), (0, 0, 6))%Z in
  let positions := [(0, 0, 0); (half, half, half)] in
  get_primitive (lattice, positions, [1%nat; 2%nat]) "tP"
    = Ok ((lattice, positions, [1%nat; 2%nat]), (identity, identity)).
Proof.
  intros lattice positions. apply get_primitive_identity.
  - by_eval.
  - discriminate.
  - reflexivity.
  - intros i j p q Hne Hp Hq.
    destruct i as [|[|i]], j as [|[|j]];
      try discriminate Hp; try discriminate Hq;
      try (exfalso; apply Hne; reflexivity);
      injection Hp as <-; injection Hq as <-; by_eval.
Defined.

(** ** [pointgroup_has_inversion] and [pgnum_from_pgint] *)

Lemma pointgroup_has_inversion_Ok (n : Z) :
  (1 ≤ n ≤ 32)%Z → ∃ b, pointgroup_has_inversion n = Ok b.
Proof.
  intros Hn. unfold pointgroup_has_inversion.
  repeat case_decide; eauto. exfalso.
  repeat match goal with
    | H : _ ∉ _ |- _ => rewrite ?not_elem_of_cons in H
    end.
  lia.
Qed.

Lemma pgnum_from_pgint_Ok (pgint : string) (n : Z) :
  pgnum_from_pgint pgint = Ok n ↔ (pgint, n) ∈ table_items.
Proof.
  unfold pgnum_from_pgint, table. split.
  - destruct (list_to_map table_items !! pgint) as [m|] eqn:Hl; [|done].
    intros [= ->]. by apply elem_of_list_to_map_2.
  - intros Hin. apply (elem_of_list_to_map_1 (M := gmap string)) in Hin.
    + by rewrite Hin.
    + by_eval.
Qed.

Lemma table_items_range (pgint : string) (n : Z) :
  (pgint, n) ∈ table_items → (1 ≤ n ≤ 32)%Z.
Proof.
  intros Hin.
  assert (Forall (λ kv : string * Z, 1 ≤ kv.2 ≤ 32)%Z table_items) as Hall
    by by_eval.
  rewrite Forall_forall in Hall. apply (Hall _ Hin).
Qed.

Lemma NoDup_snd_inj {A B} (l : list (A * B)) (a b : A) (n : B) :
  NoDup l.*2 → (a, n) ∈ l → (b, n) ∈ l → a = b.
Proof.
  induction l as [|[a' n'] l IH]; csimpl; intros Hnd Ha Hb.
  - by apply elem_of_nil in Ha.
  - apply NoDup_cons in Hnd as [Hn' Hnd].
    apply elem_of_cons in Ha as [Ha|Ha];
      apply elem_of_cons in Hb as [Hb|Hb]; simplify_eq.
    + done.
    + exfalso. apply Hn'. apply list_elem_of_fmap. by exists (b, n').
    + exfalso. apply Hn'. apply list_elem_of_fmap. by exists (a, n').
    + by apply IH.
Qed.

(** [pointgroup_has_inversion] returns a boolean for every number from 1
    to 32 (the two lists of the code cover this range), and raises the
    [ValueError] "number should be between 1 and 32" for every other
    integer. *)
Theorem pointgroup_has_inversion_domain (n : Z) :
  ((1 ≤ n ≤ 32)%Z → ∃ b, pointgroup_has_inversion n = Ok b) ∧
  ((n < 1 ∨ 32 < n)%Z →
     pointgroup_has_inversion n = Err (ValueError msg_1_32 [])).
Proof.
  split; [apply pointgroup_has_inversion_Ok|].
  intros Hn. unfold pointgroup_has_inversion.
  repeat case_decide; try done; exfalso; symbol_cases; lia.
Qed.

Lemma pointgroup_has_inversion_domain_witness :
  (∃ b, pointgroup_has_inversion 17 = Ok b) ∧
  pointgroup_has_inversion 33 = Err (ValueError msg_1_32 []) ∧
  pointgroup_has_inversion 0 = Err (ValueError msg_1_32 []).
Proof.
  split; [|split].
  - apply (proj1 (pointgroup_has_inversion_domain 17)). lia.
  - apply (proj2 (pointgroup_has_inversion_domain 33)). lia.
  - apply (proj2 (pointgroup_has_inversion_domain 0)). lia.
Defined.

(** The table of [pgnum_from_pgint] is a bijection between its 32 names and
    the numbers 1 to 32: every number of this range is the number of a name,
    no other number is returned, two names never share a number; a name
    that is not a key raises [KeyError]. *)
Theorem pgnum_from_pgint_bijection :
  (∀ n : Z, (1 ≤ n ≤ 32)%Z ↔ ∃ pgint, pgnum_from_pgint pgint = Ok n) ∧
  (∀ a b n, pgnum_from_pgint a = Ok n → pgnum_from_pgint b = Ok n → a = b) ∧
  (∀ pgint, pgint ∉ table_items.*1 →
            pgnum_from_pgint pgint = Err (KeyError pgint)).
Proof.
  split; [|split].
  - intros n. split.
    + intros Hn.
      assert (Forall (λ k, k ∈ table_items.*2) (seqZ 1 32)) as Hall by by_eval.
      rewrite Forall_forall in Hall.
      destruct (proj1 (list_elem_of_fmap _ _ _) (Hall n ltac:(apply elem_of_seqZ; lia)))
        as ([pgint n'] & -> & Hin).
      exists pgint. by apply pgnum_from_pgint_Ok.
    + intros (pgint & Hin%pgnum_from_pgint_Ok). by eapply table_items_range.
  - intros a b n Ha%pgnum_from_pgint_Ok Hb%pgnum_from_pgint_Ok.
    eapply NoDup_snd_inj; [|done..]. by_eval.
  - intros pgint Hnot. unfold pgnum_from_pgint, table.
    destruct (list_to_map table_items !! pgint) as [n|] eqn:Hl; [|done].
    exfalso. apply Hnot. apply elem_of_list_to_map_2 in Hl.
    apply list_elem_of_fmap. by exists (pgint, n).
Qed.

Lemma pgnum_from_pgint_bijection_witness :
  (∃ pgint, pgnum_from_pgint pgint = Ok 20%Z) ∧
  pgnum_from_pgint "C5" = Err (KeyError "C5").
Proof.
  destruct pgnum_from_pgint_bijection as (Hrange & _ & Hmiss). split.
  - apply Hrange. lia.
  - apply Hmiss. by_eval.
Defined.

(** The composition [pointgroup_has_inversion(pgnum_from_pgint(pg_int))]
    that [get_spgroup_data_realtime] evaluates never raises the
    [ValueError] of [pointgroup_has_inversion]: it returns a boolean, or the
    name is not in the table and [KeyError] is raised. *)
Theorem pointgroup_has_inversion_of_pgnum (pgint : string) :
  (∃ b, pgnum_from_pgint pgint ≫= pointgroup_has_inversion = Ok b) ∨
  pgnum_from_pgint pgint ≫= pointgroup_has_inversion = Err (KeyError pgint).
Proof.
  destruct (pgnum_from_pgint pgint) as [n|e] eqn:Hn.
  - left. simpl. apply pointgroup_has_inversion_Ok.
    apply pgnum_from_pgint_Ok in Hn. by eapply table_items_range.
  - right. simpl. unfold pgnum_from_pgint in Hn.
    destruct (table !! pgint); congruence.
Qed.

(** ** [get_crystal_family] *)

(** The exceptions of [get_crystal_family]: [TypeError] for an argument
    that is not an integer, the [ValueError] "number should be >= 1" below
    1, the [ValueError] "number should be <= 230" above 230; in between the
    result is one of the six letters a, m, o, t, h, c. *)
Theorem get_crystal_family_exceptions (number : pyval) :
  (isinstance_int_long number = None →
     get_crystal_family number = Err (TypeError msg_integer)) ∧
  (∀ n : Z, isinstance_int_long number = Some n →
     ((n < 1)%Z → get_crystal_family number = Err (ValueError msg_ge_1 [])) ∧
     ((230 < n)%Z →
        get_crystal_family number = Err (ValueError msg_le_230 [])) ∧
     ((1 ≤ n ≤ 230)%Z →
        ∃ s, get_crystal_family number = Ok s ∧
             s ∈ ["a"; "m"; "o"; "t"; "h"; "c"])).
Proof.
  unfold get_crystal_family. split.
  - by intros ->.
  - intros n ->. repeat split; intros Hn; repeat case_decide; try lia;
      try done; eexists; (split; [done|]); rewrite !elem_of_cons; tauto.
Qed.

Lemma get_crystal_family_exceptions_witness :
  get_crystal_family PyNone = Err (TypeError msg_integer) ∧
  get_crystal_family (PyBool false) = Err (ValueError msg_ge_1 []) ∧
  get_crystal_family (PyLong 231) = Err (ValueError msg_le_230 []).
Proof.
  split; [|split].
  - apply (proj1 (get_crystal_family_exceptions PyNone)). reflexivity.
  - apply (proj2 (get_crystal_family_exceptions (PyBool false)) 0%Z eq_refl).
    lia.
  - apply (proj2 (get_crystal_family_exceptions (PyLong 231)) 231%Z eq_refl).
    lia.
Defined.

(** ** Determinants and volumes *)




Lemma det_P_volume_ratio (b : string) (P invP : mat3) :
  get_P_matrix b = Ok (P, invP) → det P * Z2Qc (py_int (det invP)) = 1.
Proof. intros H. P_matrix_cases H; by_eval. Qed.

Lemma get_P_matrix_Err (b : string) (e : exception) :
  get_P_matrix b = Err e → e = ValueError msg_bravais [FStr b].
Proof. unfold get_P_matrix. repeat case_decide; congruence. Qed.

Lemma get_P_matrix_invalid (b : string) :
  b ∉ bravais_symbols → get_P_matrix b = Err (ValueError msg_bravais [FStr b]).
Proof.
  intros Hb. unfold get_P_matrix, bravais_symbols in *.
  repeat case_decide; try done; exfalso; apply Hb; symbol_cases; by_eval.
Qed.

(** For every accepted symbol the determinant of [P] is the reciprocal of
    the determinant of [invP], and of the volume ratio [int(det(invP))]
    that [get_primitive] computes. *)
Theorem det_P_reciprocal (b : string) (P invP : mat3) :
  get_P_matrix b = Ok (P, invP) →
  det P * det invP = 1 ∧ det P * Z2Qc (py_int (det invP)) = 1.
Proof.
  intros H. split; [|by eapply det_P_volume_ratio].
  P_matrix_cases H; by_eval.
Qed.

Lemma det_P_reciprocal_witness :
  ∃ P invP, get_P_matrix "hR" = Ok (P, invP) ∧
    det P * Z2Qc (py_int (det invP)) = 1.
Proof.
  eexists _, _. split; [reflexivity|].
  exact (proj2 (det_P_reciprocal "hR" _ _ eq_refl)).
Defined.

(** ** Errors of [choose_representatives] *)

Lemma mapM_Err {A B} (f : A → result B) (l : list A) (e : exception) :
  mapM f l = Err e → ∃ x, x ∈ l ∧ f x = Err e.
Proof.
  induction l as [|x l IH]; simpl; [done|].
  destruct (f x) as [y|e'] eqn:Hx; simpl.
  - destruct (mapM f l) as [k|e'']; simpl; [done|].
    intros [= ->]. destruct IH as (x' & Hx' & He); [done|].
    exists x'. split; [by right|done].
  - intros [= ->]. exists x. split; [by left|done].
Qed.

Lemma fancy_index_Err {A} (a : list A) (idx : list nat) (e : exception) :
  fancy_index a idx = Err e → ∃ msg args, e = IndexError msg args.
Proof.
  unfold fancy_index. case_decide.
  - intros [= <-]. eauto.
  - intros (i & _ & Hi)%mapM_Err. destruct (a !! i); simplify_eq. eauto.
Qed.

Lemma sum_list_indicator {K} `{EqDecision K} (x : K) (ks : list K) :
  NoDup ks → x ∈ ks →
  sum_list ((λ k, if decide (k = x) then 1 else 0)%nat <$> ks) = 1%nat.
Proof.
  induction 1 as [|k ks Hk Hnd IH]; intros Hx; csimpl.
  - by apply elem_of_nil in Hx.
  - case_decide as Heq.
    + subst k. f_equal. clear IH Hx.
      induction ks as [|k' ks IH']; csimpl; [done|].
      rewrite decide_False.
      * apply IH'; [|by apply NoDup_cons in Hnd as [_ ?]].
        intros Hin. apply Hk. by right.
      * intros ->. apply Hk. by left.
    + apply IH. apply elem_of_cons in Hx as [->|Hx]; done.
Qed.

Lemma length_sum_occurrences {K} `{EqDecision K} (l ks : list K) :
  NoDup ks → (∀ x, x ∈ l → x ∈ ks) →
  length l = sum_list ((λ k, occurrences k l) <$> ks).
Proof.
  intros Hnd. induction l as [|x l IH]; intros Hin.
  - unfold occurrences. simpl. clear Hnd Hin.
    induction ks as [|k ks IH]; csimpl; [done|]. by rewrite <-IH.
  - assert (sum_list ((λ k, occurrences k (x :: l)) <$> ks) =
            (sum_list ((λ k, if decide (k = x) then 1 else 0) <$> ks)
             + sum_list ((λ k, occurrences k l) <$> ks))%nat) as ->.
    { clear. induction ks as [|k ks IH]; csimpl; [done|].
      rewrite occurrences_cons, IH. case_decide; lia. }
    rewrite (sum_list_indicator x ks Hnd) by (apply Hin; by left).
    simpl. f_equal. apply IH. intros y Hy. apply Hin. by right.
Qed.

Lemma sum_list_const (n : nat) (ks : list nat) :
  Forall (λ k, k = n) ks → sum_list ks = (n * length ks)%nat.
Proof. induction 1 as [|k ks -> _ IH]; simpl; lia. Qed.

Section get_primitive_more.
Context {T : Type} `{EqDecision T}.
Implicit Types (types : list T) (positions pp : list vec3) (lattice : mat3).

Lemma choose_representatives_Err types pp groups e :
  choose_representatives types pp groups = Err e →
  (∃ msg args, e = IndexError msg args) ∨
  ∃ gs, e = ValueError msg_types [FGroups gs].
Proof.
  unfold choose_representatives.
  destruct (mapM (type_set types) groups) as [uts|e0] eqn:Huts; simpl.
  - case_decide; simpl; [|intros [= <-]; eauto].
    destruct (mapM tuple_first groups) as [idx|e1] eqn:Hidx; simpl.
    + destruct (fancy_index pp idx) as [ps|e2] eqn:Hps; simpl.
      * destruct (fancy_index types idx) as [ts|e3] eqn:Hts; simpl; [done|].
        intros [= <-]. apply fancy_index_Err in Hts. eauto.
      * intros [= <-]. apply fancy_index_Err in Hps. eauto.
    + intros [= <-]. apply mapM_Err in Hidx as ([|i g] & _ & Hg);
        simpl in Hg; simplify_eq. eauto.
  - intros [= <-]. apply mapM_Err in Huts as (g & _ & Hg).
    unfold type_set in Hg.
    destruct (fancy_index types g) as [ts|e1] eqn:Hts; simpl in Hg; [done|].
    apply fancy_index_Err in Hts. simplify_eq. eauto.
Qed.



(** For a symbol that is not one of the fourteen Bravais lattice symbols,
    [get_primitive] raises the [ValueError] of [get_P_matrix], whatever the
    structure. *)
Theorem get_primitive_invalid_symbol (s : @structure T) (b : string) :
  b ∉ bravais_symbols →
  get_primitive s b = Err (ValueError msg_bravais [FStr b]).
Proof.
  intros Hb. destruct s as [[lattice positions] types].
  unfold get_primitive. by rewrite (get_P_matrix_invalid b Hb).
Qed.

(** [get_primitive] never raises the [ValueError] of its count check
    ("... group of atoms with len != ..."), on any input. *)
Theorem get_primitive_never_len_error (s : @structure T) (b : string)
    (args : list fmt_arg) :
  get_primitive s b ≠ Err (ValueError msg_len args).
Proof.
  destruct s as [[lattice positions] types].
  destruct (get_P_matrix b) as [[P invP]|e] eqn:HP.
  - rewrite (get_primitive_unfold _ _ _ _ _ _ HP). cbv zeta.
    case_decide; [|done].
    destruct (choose_representatives _ _ _) as [[ps ts]|e] eqn:Hch; [done|].
    apply choose_representatives_Err in Hch as [(msg & a & ->)|[gs ->]];
      simpl.
    + done.
    + intros [=].
  - unfold get_primitive. rewrite HP. simpl.
    apply get_P_matrix_Err in HP as ->. intros [=].
Qed.



(** When [get_primitive] succeeds, the number of atoms of the input is the
    volume ratio times the number of atoms returned, and there are as many
    types as positions in the result. *)
Theorem get_primitive_atom_count lattice positions types (b : string)
    (lattice' : mat3) (ps : list vec3) (ts : list T) (P invP : mat3) :
  get_primitive (lattice, positions, types) b
    = Ok ((lattice', ps, ts), (P, invP)) →
  Z.of_nat (length positions)
    = (py_int (det invP) * Z.of_nat (length ps))%Z ∧
  length ts = length ps.
Proof.
  intros Hget.
  apply get_primitive_Ok_inv in Hget
    as (P' & invP' & ps' & ts' & HP & [= <- <-] & [= _ <- <-] & Hw & Hch).
  set (pp := dot_rows invP positions) in *.
  apply choose_representatives_inv in Hch as (_ & idx & Hidx & Hps & Hts).
  apply mapM_Ok, Forall2_length in Hidx.
  apply fancy_index_Ok_1, Forall2_length in Hps.
  apply fancy_index_Ok_1, Forall2_length in Hts.
  split; [|lia].
  rewrite <-Hps, <-Hidx.
  assert (length positions = length (rows_of pp)) as ->
    by (unfold rows_of, pp, dot_rows; by rewrite !length_fmap).
  pose proof (proj1 (wrong_count_of_nil _ _) Hw) as Hcount.
  destruct (decide (rows_of pp = [])) as [Hnil|Hne].
  { assert (groups_of pp = []) as ->.
    { apply elem_of_nil_inv. intros g Hg.
      apply (elem_of_groups (rows_of pp)) in Hg. rewrite Hnil in Hg.
      by apply elem_of_nil in Hg. }
    rewrite Hnil. simpl. lia. }
  assert (0 ≤ py_int (det invP))%Z as Hpos.
  { destruct (rows_of pp) as [|g rows] eqn:Hrows; [done|].
    rewrite <-(Hcount g) by (by left). lia. }
  rewrite (length_sum_occurrences (rows_of pp) (groups_of pp)).
  - rewrite (sum_list_const (Z.to_nat (py_int (det invP)))).
    + rewrite length_fmap. lia.
    + apply Forall_fmap, Forall_forall. intros g Hg.
      apply (elem_of_groups (rows_of pp)) in Hg.
      simpl. rewrite <-(Hcount g Hg). lia.
  - apply NoDup_groups.
  - intros g Hg. by apply (elem_of_groups (rows_of pp)).
Qed.

(** When [get_primitive] succeeds, the type returned for a group is the
    type of every atom of the group. *)
Theorem get_primitive_group_types lattice positions types (b : string)
    (lattice' : mat3) (ps : list vec3) (ts : list T) (P invP : mat3) :
  get_primitive (lattice, positions, types) b
    = Ok ((lattice', ps, ts), (P, invP)) →
  Forall2 (λ g t, ∀ k, k ∈ g → types !! k = Some t)
    (groups_of (dot_rows invP positions)) ts.
Proof.
  intros Hget.
  apply get_primitive_Ok_inv in Hget
    as (P' & invP' & ps' & ts' & HP & [= <- <-] & [= _ <- <-] & _ & Hch).
  set (pp := dot_rows invP positions) in *.
  apply choose_representatives_inv in Hch as (Hhom & idx & Hidx & _ & Hts).
  apply mapM_Ok in Hidx. apply fancy_index_Ok_1 in Hts.
  apply Forall2_same_length_lookup. split.
  { apply Forall2_length in Hidx, Hts. lia. }
  intros n g t Hg Ht k Hk.
  destruct (Forall2_lookup_l _ _ _ _ _ Hidx Hg) as (r & Hr & Hhd).
  apply tuple_first_Ok in Hhd.
  pose proof (Forall2_lookup_lr _ _ _ _ _ _ Hts Hr Ht) as Htr.
  rewrite Forall_forall in Hhom.
  destruct (Hhom g) as (us & Hus & Hlen); [apply list_elem_of_lookup; eauto|].
  apply remove_dups_length_1 in Hlen as (x & _ & Hall).
  apply fancy_index_Ok_1 in Hus.
  assert (∀ j u, j ∈ g → types !! j = Some u → u = x) as Hsame.
  { intros j u [m Hm]%list_elem_of_lookup Hj.
    destruct (Forall2_lookup_l _ _ _ _ _ Hus Hm) as (u' & Hu' & Hj').
    assert (u' = u) as -> by congruence.
    apply Hall, list_elem_of_lookup. eauto. }
  assert (r ∈ g) as Hrg by (destruct g; simplify_eq/=; by left).
  assert (t = x) as -> by by apply (Hsame r).
  apply list_elem_of_lookup in Hk as [m Hm].
  destruct (Forall2_lookup_l _ _ _ _ _ Hus Hm) as (u & Hu & Hku).
  rewrite Hku. f_equal. apply Hall, list_elem_of_lookup. eauto.
Qed.
End get_primitive_more.

Lemma get_primitive_invalid_symbol_witness :
  get_primitive (identity, [(0, 0, 0)], [1%nat]) "fcc"
    = Err (ValueError msg_bravais [FStr "fcc"]).
Proof. apply get_primitive_invalid_symbol. by_eval. Defined.



Lemma get_primitive_atom_count_witness :
  Z.of_nat (length fcc_positions)
    = (py_int (det (np_array ((-1, 1, 1), (1, -1, 1), (1, 1, -1))%Z))
       * Z.of_nat (length [(0, 0, 0)]))%Z ∧
  length [7%nat] = length [(0, 0, 0)].
Proof.
  apply (get_primitive_atom_count identity fcc_positions
           [7%nat; 7%nat; 7%nat; 7%nat] "cF"
           (scale (Z2Qc 1 / Z2Qc 2)
              (np_array ((0, 1, 1), (1, 0, 1), (1, 1, 0))%Z))
           [(0, 0, 0)] [7%nat]
           (scale (Z2Qc 1 / Z2Qc 2)
              (np_array ((0, 1, 1), (1, 0, 1), (1, 1, 0))%Z))).
  by_eval.
Defined.

Lemma get_primitive_group_types_witness :
  let invP := np_array ((0, 1, 1), (1, 0, 1), (1, 1, 0))%Z in
  let positions := [(0, 0, 0); (half, 0, 0); (half, half, half);
                    (0, half, half)] in
  let types := [1%nat; 2%nat; 1%nat; 2%nat] in
  Forall2 (λ g t, ∀ k, k ∈ g → types !! k = Some t)
    (groups_of (dot_rows invP positions)) [1%nat; 2%nat].
Proof.
  intros invP positions types.
  apply (get_primitive_group_types identity positions types "cI"
           (scale (Z2Qc 1 / Z2Qc 2)
              (np_array ((-1, 1, 1), (1, -1, 1), (1, 1, -1))%Z))
           [(0, 0, 0); (0, half, half)] [1%nat; 2%nat]
           (scale (Z2Qc 1 / Z2Qc 2)
              (np_array ((-1, 1, 1), (1, -1, 1), (1, 1, -1))%Z))).
  by_eval.
Defined.

(** ** [get_spgroup_data_realtime] *)

Lemma get_crystal_family_Ok_range (n : Z) (s : string) :
  get_crystal_family (PyInt n) = Ok s → (1 ≤ n ≤ 230)%Z.
Proof.
  unfold get_crystal_family. simpl. repeat case_decide; try done; lia.
Qed.

Section get_spgroup_data_realtime_facts.
Variable get_spacegroup_type : nat → spacegroup_type.
Implicit Types (info : gmap Z (string * string * bool)) (hall_n : nat).

Lemma info_step_Ok info info' hall_n :
  info_step get_spacegroup_type info hall_n = Ok info' →
  (is_Some (info !! data_number (get_spacegroup_type hall_n)) ∧
   info' = info) ∨
  (info !! data_number (get_spacegroup_type hall_n) = None ∧
   ∃ v, entry_of get_spacegroup_type hall_n v ∧
        info' = <[data_number (get_spacegroup_type hall_n) := v]> info).
Proof.
  unfold info_step. intros Hstep. cbv zeta in Hstep.
  case_decide as Hnew.
  - right. split; [done|].
    apply bind_Ok in Hstep as (family & Hfamily & Hstep).
    apply bind_Ok in Hstep as (centering & Hcentering & Hstep).
    apply bind_Ok in Hstep as (pgnum & Hpgnum & Hstep).
    apply bind_Ok in Hstep as (has_inversion & Hinv & [= <-]).
    exists (family, centering, has_inversion). split; [|done].
    unfold entry_of. cbv zeta. split; [exact Hfamily|].
    split; [exact Hcentering|]. rewrite Hpgnum. exact Hinv.
  - left. split; [|by injection Hstep].
    by apply not_eq_None_Some.
Qed.

Lemma info_step_invariant info info' (halls : list nat) hall_n :
  loop_invariant get_spacegroup_type info halls →
  info_step get_spacegroup_type info hall_n = Ok info' →
  loop_invariant get_spacegroup_type info' (halls ++ [hall_n])%list.
Proof.
  intros [Hentries Hkeys] Hstep. apply info_step_Ok in Hstep.
  assert (∀ n v, info !! n = Some v →
     ∃ i h0, (halls ++ [hall_n])%list !! i = Some h0 ∧
       data_number (get_spacegroup_type h0) = n ∧ entry_of get_spacegroup_type h0 v ∧
       ∀ j h, (j < i)%nat → (halls ++ [hall_n])%list !! j = Some h →
              data_number (get_spacegroup_type h) ≠ n) as Hold.
  { intros n v Hv. destruct (Hentries n v Hv) as (i & h0 & Hi & Hn & He & Hmin).
    exists i, h0. pose proof (lookup_lt_Some _ _ _ Hi) as Hlt.
    split; [by rewrite lookup_app_l|]. split; [done|]. split; [done|].
    intros j h Hj Hh. rewrite lookup_app_l in Hh by lia. by eapply Hmin. }
  destruct Hstep as [[Hsome ->]|(Hnone & v & Hv & ->)]; split.
  - done.
  - intros h [Hh|Hh%list_elem_of_singleton]%elem_of_app; [auto|by subst h].
  - intros n v'. destruct (decide (n = data_number (get_spacegroup_type hall_n)))
      as [->|Hne].
    + rewrite lookup_insert_eq. intros [= <-].
      exists (length halls), hall_n. split.
      { by rewrite lookup_app_r, Nat.sub_diag by lia. }
      split; [done|]. split; [done|].
      intros j h Hj Hh Heq. rewrite lookup_app_l in Hh by lia.
      destruct (Hkeys h) as [v' Hv']; [by eapply list_elem_of_lookup_2|].
      rewrite Heq in Hv'. congruence.
    + rewrite lookup_insert_ne by done. apply Hold.
  - intros h [Hh|Hh%list_elem_of_singleton]%elem_of_app.
    + apply lookup_insert_is_Some'. right. by apply Hkeys.
    + subst h. apply lookup_insert_is_Some'. by left.
Qed.

Lemma for_each_info_step_invariant (l halls : list nat) info info' :
  loop_invariant get_spacegroup_type info halls →
  for_each (info_step get_spacegroup_type) info l = Ok info' →
  loop_invariant get_spacegroup_type info' (halls ++ l)%list.
Proof.
  revert halls info. induction l as [|hall_n l IH]; intros halls info Hinv.
  - simpl. intros [= <-]. by rewrite app_nil_r.
  - simpl. intros (info1 & Hstep & Hrest)%bind_Ok.
    rewrite cons_middle, app_assoc. eapply IH; [|done].
    by eapply info_step_invariant.
Qed.

(** When [get_spgroup_data_realtime] returns, the dictionary has an entry
    for the spacegroup number of each of the 530 settings; every key is
    between 1 and 230, and its entry holds the crystal family of the key,
    and the centering letter and the inversion flag of the first setting
    with this number. *)
Theorem get_spgroup_data_realtime_first_setting info :
  get_spgroup_data_realtime get_spacegroup_type = Ok info →
  (∀ hall_n, (1 ≤ hall_n ≤ 530)%nat →
     is_Some (info !! data_number (get_spacegroup_type hall_n))) ∧
  (∀ n v, info !! n = Some v →
     (1 ≤ n ≤ 230)%Z ∧
     ∃ hall_n, (1 ≤ hall_n ≤ 530)%nat ∧
       data_number (get_spacegroup_type hall_n) = n ∧
       (∀ h, (1 ≤ h < hall_n)%nat →
             data_number (get_spacegroup_type h) ≠ n) ∧
       get_crystal_family (PyInt n) = Ok v.1.1 ∧
       string_first (data_international_short (get_spacegroup_type hall_n))
         = Ok v.1.2 ∧
       pgnum_from_pgint
         (data_pointgroup_international (get_spacegroup_type hall_n))
         ≫= pointgroup_has_inversion = Ok v.2).
Proof.
  unfold get_spgroup_data_realtime. intros Hloop.
  apply (for_each_info_step_invariant _ []) in Hloop as [Hentries Hkeys].
  - rewrite app_nil_l in Hentries, Hkeys. split.
    + intros hall_n Hh. apply Hkeys, elem_of_seq. lia.
    + intros n v Hv.
      destruct (Hentries n v Hv)
        as (i & hall_n & Hi & Hn & (Hfam & Hcen & Hinv) & Hmin).
      apply lookup_seq in Hi as [-> Hi]. rewrite Hn in Hfam. split.
      { by eapply get_crystal_family_Ok_range. }
      exists (1 + i)%nat. split; [lia|]. split; [done|]. split; [|done].
      intros h Hh. apply (Hmin (h - 1)%nat h); [lia|].
      apply lookup_seq. lia.
  - split.
    + intros n v Hv. by rewrite lookup_empty in Hv.
    + intros h Hh. by apply elem_of_nil in Hh.
Qed.
End get_spgroup_data_realtime_facts.

Lemma get_spgroup_data_realtime_first_setting_witness :
  let get_spacegroup_type := λ hall_n : nat,
    if decide (hall_n ≤ 1)%nat then
      {| data_number := 1; data_international_short := "P1";
         data_pointgroup_international := "C1" |}
    else
      {| data_number := 2; data_international_short := "P-1";
         data_pointgroup_international := "Ci" |} in
  let info : gmap Z (string * string * bool) :=
    {[ 1%Z := ("a", "P", false); 2%Z := ("a", "P", true) ]} in
  (∀ hall_n, (1 ≤ hall_n ≤ 530)%nat →
     is_Some (info !! data_number (get_spacegroup_type hall_n))) ∧
  (∀ n v, info !! n = Some v →
     (1 ≤ n ≤ 230)%Z ∧
     ∃ hall_n, (1 ≤ hall_n ≤ 530)%nat ∧
       data_number (get_spacegroup_type hall_n) = n ∧
       (∀ h, (1 ≤ h < hall_n)%nat →
             data_number (get_spacegroup_type h) ≠ n) ∧
       get_crystal_family (PyInt n) = Ok v.1.1 ∧
       string_first (data_international_short (get_spacegroup_type hall_n))
         = Ok v.1.2 ∧
       pgnum_from_pgint
         (data_pointgroup_international (get_spacegroup_type hall_n))
         ≫= pointgroup_has_inversion = Ok v.2).
Proof.
  intros get_spacegroup_type info.
  apply (get_spgroup_data_realtime_first_setting get_spacegroup_type info).
  by_eval.
Defined.
